(** * tf_skein: rendezvous and lifecycle coordination, verified against the code

  A shallow embedding of [tf_skein/_internal.py] and [tf_skein/cluster.py].
  Python dictionaries are finite maps, keyword arguments are association
  lists in insertion order, exceptions are values of [exn] carried by an
  [outcome], and every piece of mutable state the functions touch
  ([os.environ], the iterator of reserved addresses, the log of calls made
  to the resource manager) is threaded explicitly. *)

From Stdlib Require Import ZArith List String Ascii Lia.
From Stdlib.Strings Require Import Byte.
From stdpp Require Import base option list list_numbers gmap sets strings pretty.

#[local] Set Warnings "-clear-no-such-hyp".

(** ** Python values shared by both modules *)

Module Py.

(** The exception classes the two modules raise, catch or let through. *)
Inductive exn : Type :=
| KeyError (key : string)
| RuntimeError (msg : string)
| ValueError (msg : string)
| AssertionError
| StopIteration
| KeyboardInterrupt
| SystemExit
| ConnectionError                (* skein.exceptions.ConnectionError *)
| SocketError (errno : Z)        (* socket.error, with its errno *)
| BinasciiError (msg : string)   (* binascii.Error *)
| OtherException (name : string).

#[global] Instance exn_eq_dec : EqDecision exn.
Proof. solve_decision. Defined.

(** How a call ends: with a value, or with an exception escaping it. *)
Inductive outcome (A : Type) : Type :=
| Returned (v : A)
| Raised (e : exn).
Arguments Returned {A} v.
Arguments Raised {A} e.

(** [bool(s)] for a string: the empty string is falsy. *)
Definition truthy (s : string) : bool :=
  match s with
  | EmptyString => false
  | String _ _ => true
  end.

(** Computations that may raise over a piece of mutable state [S]: the
    state is threaded through, and is still there when an exception
    escapes. *)
Definition M (S A : Type) : Type := S -> outcome A * S.

Definition ret {S A} (v : A) : M S A := fun s => (Returned v, s).
Definition raise {S A} (e : exn) : M S A := fun s => (Raised e, s).
Definition bind {S A B} (m : M S A) (k : A -> M S B) : M S B := fun s =>
  match m s with
  | (Returned v, s') => k v s'
  | (Raised e, s') => (Raised e, s')
  end.

Notation "x <- m ;; k" := (bind m (fun x => k))
  (at level 100, m at next level, right associativity).
Notation "m ;;; k" := (bind m (fun _ => k))
  (at level 100, right associativity).

(** [range(n)]: empty when [n] is not positive. *)
Definition range (n : Z) : list Z := seqZ 0 n.

End Py.
Import Py.

(** ** [xset_environ]: exclusive, scoped setting of environment variables *)

Module EnvironmentScope.

(** [os.environ]. *)
Abbreviation environ := (gmap string string).

(** Computations over [os.environ]. *)
Abbreviation EnvM := (M environ).

(** [os.environ[key]]: a missing key raises [KeyError]. *)
Definition environ_getitem (key : string) : EnvM string := fun env =>
  match env !! key with
  | Some v => (Returned v, env)
  | None => (Raised (KeyError key), env)
  end.

(** Whether the character [c] occurs in [s]. *)
Definition has_char (c : ascii) (s : string) : bool :=
  existsb (Ascii.eqb c) (list_ascii_of_string s).

(** What [os.putenv(key, value)] refuses: a NUL in the name or the value
    ([ValueError]), an [=] in the name ([ValueError]), an empty name
    ([OSError] with [EINVAL], the class [socket.error] names too). *)
Definition putenv_error (key value : string) : option exn :=
  if has_char "000"%char key || has_char "000"%char value
  then Some (ValueError "embedded null byte")
  else if has_char "="%char key
  then Some (ValueError "illegal environment variable name")
  else if truthy key then None
  else Some (SocketError 22).

(** [os.environ[key] = value]: the variable is put in the environment of
    the process, then recorded. *)
Definition environ_setitem (key value : string) : EnvM unit := fun env =>
  match putenv_error key value with
  | Some e => (Raised e, env)
  | None => (Returned tt, <[key := value]> env)
  end.

(** [os.environ.update(kwargs)]: the names are set one by one, in the
    order of the mapping, and an error leaves the earlier ones set. *)
Fixpoint environ_update (kwargs : list (string * string)) : EnvM unit :=
  match kwargs with
  | [] => ret tt
  | (key, value) :: rest =>
      environ_setitem key value ;;; environ_update rest
  end.

(** [os.environ.pop(key)]: a missing key raises [KeyError]. *)
Definition environ_pop (key : string) : EnvM string := fun env =>
  match env !! key with
  | Some v => (Returned v, delete key env)
  | None => (Raised (KeyError key), env)
  end.

(** [try: m except KeyError: raise e]. *)
Definition except_KeyError {A} (m : EnvM A) (e : exn) : EnvM A := fun env =>
  match m env with
  | (Raised (KeyError _), env') => (Raised e, env')
  | r => r
  end.

(** The two [RuntimeError]s, with their f-string messages. *)
Definition already_set (key value : string) : exn :=
  RuntimeError (key ++ " already set in os.environ: " ++ value).

Definition is_missing (key : string) : exn :=
  RuntimeError (key ++ " is missing from os.environ").

(** The first loop: [if os.environ[key]: raise RuntimeError(...)]. *)
Fixpoint check_loop (kwargs : list (string * string)) : EnvM unit :=
  match kwargs with
  | [] => ret tt
  | (key, value) :: rest =>
      v <- environ_getitem key ;;
      if truthy v
      then raise (already_set key value)
      else check_loop rest
  end.

(** The loop after the [yield]. *)
Fixpoint pop_loop (kwargs : list (string * string)) : EnvM unit :=
  match kwargs with
  | [] => ret tt
  | (key, _) :: rest =>
      except_KeyError (environ_pop key) (is_missing key) ;;;
      pop_loop rest
  end.

(** The generator up to its [yield], and from its [yield] on. *)
Definition xset_environ_enter (kwargs : list (string * string)) : EnvM unit :=
  check_loop kwargs ;;; environ_update kwargs.

Definition xset_environ_exit (kwargs : list (string * string)) : EnvM unit :=
  pop_loop kwargs.

(** [with xset_environ(kwargs): body], the keyword arguments unpacked.
    [contextlib.contextmanager] resumes the generator when the body
    returns; when the body raises it throws the exception into the
    generator at the [yield], and as the [yield] of [xset_environ] stands
    outside any [try], nothing behind it runs and the exception leaves the
    [with] statement. *)
Definition with_xset_environ {A} (kwargs : list (string * string))
    (body : EnvM A) : EnvM A := fun env =>
  match xset_environ_enter kwargs env with
  | (Raised e, env1) => (Raised e, env1)
  | (Returned _, env1) =>
      match body env1 with
      | (Raised e, env2) => (Raised e, env2)
      | (Returned v, env2) =>
          match xset_environ_exit kwargs env2 with
          | (Raised e, env3) => (Raised e, env3)
          | (Returned _, env3) => (Returned v, env3)
          end
      end
  end.

End EnvironmentScope.

(** ** [_spec_from_iter] and [_spec_from_kv]: the role -> endpoints table *)

Module ClusterSpecBuilder.

(** The dictionary both builders return. *)
Abbreviation cluster_spec := (gmap string (list string)).

(** [spec.setdefault(role, []).append(addr)]. *)
Definition setdefault_append (role addr : string)
    (spec : gmap string (list string)) : gmap string (list string) :=
  <[role := default [] (spec !! role) ++ [addr]]> spec.

(** The iterator [reserved], as the elements it has left to give. *)
Abbreviation IterM := (M (list string)).

(** [next(reserved)]: an exhausted iterator raises [StopIteration]. *)
Definition next_ : IterM string := fun reserved =>
  match reserved with
  | [] => (Raised StopIteration, [])
  | addr :: reserved' => (Returned addr, reserved')
  end.

(** [for _ in range(n): spec.setdefault(role, []).append(next(reserved))],
    the loop running over what is left of [range(n)]. *)
Fixpoint append_from_iter (role : string) (todo : list Z)
    (spec : gmap string (list string)) : IterM (gmap string (list string)) :=
  match todo with
  | [] => ret spec
  | _ :: todo' =>
      addr <- next_ ;;
      append_from_iter role todo' (setdefault_append role addr spec)
  end.

Definition _spec_from_iter (num_workers num_ps : Z)
    : IterM (gmap string (list string)) :=
  chief <- next_ ;;
  spec <- append_from_iter "worker" (range num_workers) {[ "chief" := [chief] ]} ;;
  append_from_iter "ps" (range num_ps) spec.

(** The key-value store [kv] is the set of keys published so far;
    [kv.wait(key)] returns the value of a published key and never returns
    for a key that is not published.  The keys waited on are logged. *)
Inductive waited (A : Type) : Type :=
| Got (v : A)
| BlocksOn (key : string).
Arguments Got {A} v.
Arguments BlocksOn {A} key.

Definition KvM (A : Type) : Type := list string -> waited A * list string.

Definition kv_wait (kv : gmap string string) (key : string) : KvM string :=
  fun log =>
    match kv !! key with
    | Some v => (Got v, log ++ [key])
    | None => (BlocksOn key, log ++ [key])
    end.

(** The f-string [f"{role}:{idx}"]. *)
Definition barrier_key (role : string) (idx : Z) : string :=
  role ++ ":" ++ pretty idx.

(** [for idx in range(n):
       spec.setdefault(role, []).append(kv.wait(f"{role}:{idx}"))]. *)
Fixpoint append_from_kv (kv : gmap string string) (role : string)
    (todo : list Z) (spec : gmap string (list string))
    : KvM (gmap string (list string)) := fun log =>
  match todo with
  | [] => (Got spec, log)
  | idx :: todo' =>
      match kv_wait kv (barrier_key role idx) log with
      | (Got addr, log') =>
          append_from_kv kv role todo' (setdefault_append role addr spec) log'
      | (BlocksOn key, log') => (BlocksOn key, log')
      end
  end.

Definition _spec_from_kv (kv : gmap string string) (num_workers num_ps : Z)
    : KvM (gmap string (list string)) := fun log =>
  match kv_wait kv "chief:0" log with
  | (BlocksOn key, log') => (BlocksOn key, log')
  | (Got chief, log') =>
      match append_from_kv kv "ps" (range num_ps) {[ "chief" := [chief] ]} log' with
      | (BlocksOn key, log'') => (BlocksOn key, log'')
      | (Got spec, log'') =>
          append_from_kv kv "worker" (range num_workers) spec log''
      end
  end.

(** Closed forms, used to state what the loops compute.  [extend] is the
    effect of appending [addrs] one by one through [setdefault]: no key is
    made for no address. *)
Definition extend (role : string) (addrs : list string)
    (spec : gmap string (list string)) : gmap string (list string) :=
  match addrs with
  | [] => spec
  | _ => <[role := default [] (spec !! role) ++ addrs]> spec
  end.

(** The endpoint of task [idx] of [role] in a cluster spec. *)
Definition endpoint_at (spec : gmap string (list string)) (slot : string * Z)
    : option string :=
  spec !! slot.1 ≫= fun addrs => addrs !! Z.to_nat slot.2.

(** The slots [role:0 .. role:n-1], and the two orders in which the
    builders go through the slots. *)
Definition slots (role : string) (n : Z) : list (string * Z) :=
  (fun idx => (role, idx)) <$> range n.

Definition kv_order (num_workers num_ps : Z) : list (string * Z) :=
  ("chief", 0%Z) :: slots "ps" num_ps ++ slots "worker" num_workers.

Definition iter_order (num_workers num_ps : Z) : list (string * Z) :=
  ("chief", 0%Z) :: slots "worker" num_workers ++ slots "ps" num_ps.

Definition slot_key (slot : string * Z) : string :=
  barrier_key slot.1 slot.2.

(** The keys a table is expected to have: ["chief"], and each other role
    with a positive count. *)
Definition expected_keys (num_workers num_ps : Z) : gset string :=
  {[ "chief" ]}
  ∪ (if decide (0 < num_workers)%Z then {[ "worker" ]} else ∅)
  ∪ (if decide (0 < num_ps)%Z then {[ "ps" ]} else ∅).

(** The values the store holds for the slots [role:0 .. role:n-1]. *)
Definition kv_values (kv : gmap string string) (role : string) (n : Z)
    : list string :=
  omap (fun slot => kv !! slot_key slot) (slots role n).

(** The waits of [_spec_from_kv] written as one loop over a list of
    slots, each value going to the list of its role. *)
Fixpoint wait_slots (kv : gmap string string) (todo : list (string * Z))
    (spec : gmap string (list string)) : KvM (gmap string (list string)) :=
  fun log =>
    match todo with
    | [] => (Got spec, log)
    | slot :: todo' =>
        match kv_wait kv (slot_key slot) log with
        | (Got addr, log') =>
            wait_slots kv todo' (setdefault_append slot.1 addr spec) log'
        | (BlocksOn key, log') => (BlocksOn key, log')
        end
    end.

End ClusterSpecBuilder.

(** ** [encode_fn] and [decode_fn]: a callable as plain text *)

Module RemoteClosure.

Local Open Scope Z_scope.

(** A byte as the integer [0 .. 255] it stands for, and an integer stored
    into an [unsigned char]. *)
Definition byte_to_Z (b : byte) : Z := Z.of_N (Byte.to_N b).

Definition byte_of_Z (z : Z) : byte :=
  default x00 (Byte.of_N (Z.to_N (Z.land z 255))).

(** The alphabet of RFC 4648, section 4, and the padding character. *)
Definition table_b2a_base64 : string :=
  "ABCDEFGHIJKLMNOPQRSTUVWXYZabcdefghijklmnopqrstuvwxyz0123456789+/".

Definition BASE64_PAD : ascii := "="%char.

Definition b2a (sextet : Z) : ascii :=
  default BASE64_PAD (String.get (Z.to_nat sextet) table_b2a_base64).

(** Position of a character in a table, counted from [i]. *)
Fixpoint index_from (c : ascii) (table : string) (i : Z) : option Z :=
  match table with
  | EmptyString => None
  | String d table' =>
      if Ascii.eqb c d then Some i else index_from c table' (i + 1)
  end.

Definition table_a2b_base64 (c : ascii) : option Z :=
  index_from c table_b2a_base64 0.

(** [base64.b64encode(data).decode()]: three bytes give four characters,
    and a last group of one or two bytes is padded with [=].  The output
    is ASCII, so decoding the bytes object to [str] keeps every code. *)
Fixpoint b64encode (data : list byte) : string :=
  match data with
  | [] => EmptyString
  | [b1] =>
      let x1 := byte_to_Z b1 in
      String (b2a (Z.shiftr x1 2))
        (String (b2a (Z.shiftl (Z.land x1 3) 4))
           (String BASE64_PAD (String BASE64_PAD EmptyString)))
  | [b1; b2] =>
      let x1 := byte_to_Z b1 in
      let x2 := byte_to_Z b2 in
      String (b2a (Z.shiftr x1 2))
        (String (b2a (Z.lor (Z.shiftl (Z.land x1 3) 4) (Z.shiftr x2 4)))
           (String (b2a (Z.shiftl (Z.land x2 15) 2))
              (String BASE64_PAD EmptyString)))
  | b1 :: b2 :: b3 :: data' =>
      let x1 := byte_to_Z b1 in
      let x2 := byte_to_Z b2 in
      let x3 := byte_to_Z b3 in
      String (b2a (Z.shiftr x1 2))
        (String (b2a (Z.lor (Z.shiftl (Z.land x1 3) 4) (Z.shiftr x2 4)))
           (String (b2a (Z.lor (Z.shiftl (Z.land x2 15) 2) (Z.shiftr x3 6)))
              (String (b2a (Z.land x3 63)) (b64encode data'))))
  end.

(** The loop of [binascii.a2b_base64] without strict mode, which is what
    [base64.b64decode(s)] runs: characters outside the alphabet are
    skipped, a complete pad sequence ends the input, and input that stops
    inside a quad is an error. *)
Fixpoint a2b_loop (s : string) (quad_pos leftchar pads : Z)
    (bin : list byte) : outcome (list byte) :=
  match s with
  | EmptyString =>
      if quad_pos =? 0 then Returned bin
      else if quad_pos =? 1
      then Raised (BinasciiError "Invalid base64-encoded string")
      else Raised (BinasciiError "Incorrect padding")
  | String c s' =>
      if Ascii.eqb c BASE64_PAD then
        if 2 <=? quad_pos then
          if 4 <=? quad_pos + (pads + 1) then Returned bin
          else a2b_loop s' quad_pos leftchar (pads + 1) bin
        else a2b_loop s' quad_pos leftchar pads bin
      else
        match table_a2b_base64 c with
        | None => a2b_loop s' quad_pos leftchar pads bin
        | Some this_ch =>
            if quad_pos =? 0 then
              a2b_loop s' 1 this_ch 0 bin
            else if quad_pos =? 1 then
              a2b_loop s' 2 (Z.land this_ch 15) 0
                (bin ++ [byte_of_Z (Z.lor (Z.shiftl leftchar 2) (Z.shiftr this_ch 4))])
            else if quad_pos =? 2 then
              a2b_loop s' 3 (Z.land this_ch 3) 0
                (bin ++ [byte_of_Z (Z.lor (Z.shiftl leftchar 4) (Z.shiftr this_ch 2))])
            else
              a2b_loop s' 0 0 0
                (bin ++ [byte_of_Z (Z.lor (Z.shiftl leftchar 6) this_ch)])
        end
  end.

Definition is_ascii (c : ascii) : bool := (Z.of_N (N_of_ascii c) <? 128).

(** [base64.b64decode(s)] for a [str]: only ASCII is accepted. *)
Definition b64decode (s : string) : outcome (list byte) :=
  if forallb is_ascii (list_ascii_of_string s)
  then a2b_loop s 0 0 0 []
  else Raised (ValueError "string argument should contain only ASCII characters").

(** Characters that may stand in an environment variable or on a command
    line unquoted: the base64 alphabet and its padding. *)
Definition plain_text_safe (s : string) : Prop :=
  Forall (fun c => c = BASE64_PAD \/ is_Some (table_a2b_base64 c))
         (list_ascii_of_string s).

Section dill.

(** The pickler is not part of the package: [fn] are the Python callables,
    [dumps] and [loads] are [dill.dumps] and [dill.loads], and [call] runs a
    callable on an argument. *)
Context {fn arg res : Type}.
Variable dumps : fn -> outcome (list byte).
Variable loads : list byte -> outcome fn.
Variable call : fn -> arg -> outcome res.

Definition encode_fn (f : fn) : outcome string :=
  match dumps f with
  | Returned pickled => Returned (b64encode pickled)
  | Raised e => Raised e
  end.

Definition decode_fn (s : string) : outcome fn :=
  match b64decode s with
  | Returned pickled => loads pickled
  | Raised e => Raised e
  end.

(** Two callables behave identically: the same outcome on every input. *)
Definition same_behaviour (f g : fn) : Prop :=
  forall x : arg, call g x = call f x.

(** [f] is serializable: the pickler writes it, and reads back from what it
    wrote a callable that behaves like [f]. *)
Definition serializable (f : fn) : Prop :=
  exists pickled g,
    dumps f = Returned pickled /\ loads pickled = Returned g /\ same_behaviour f g.

End dill.

End RemoteClosure.

(** ** [iter_available_sock_addrs]: a lazy sequence of held endpoints *)

Module PortReservation.

(** [errno.EADDRINUSE]. *)
Definition EADDRINUSE : Z := 98.

(** What the operating system answers to [s.bind(("", 0))]: the port it
    chose for the socket, or a [socket.error] with its [errno]. *)
Inductive bind_result : Type :=
| Bound (port : N)
| BindFails (errno : Z).

(** The [ExitStack]: the sockets entered so far, newest first, all open;
    each is bound to a port or, when its [bind] failed, to none. *)
Abbreviation exit_stack := (list (option N)).

(** How one turn of [while True] ends. *)
Inductive turn : Type :=
| Yields (addr : string)
| Continues
| Raises (e : exn).

(** One turn of the loop, given the answer to its [bind].  The socket is
    entered into the stack before it is bound; an exception leaving the
    [with] block closes every socket of the stack. *)
Definition loop_turn (host : string) (stack : list (option N))
    (answer : bind_result) : turn * list (option N) :=
  match answer with
  | BindFails errno =>
      if Z.eqb errno EADDRINUSE
      then (Continues, None :: stack)
      else (Raises (SocketError errno), [])
  | Bound port =>
      (Yields (host ++ ":" ++ pretty port), Some port :: stack)
  end.

(** The generator run against the answers the operating system gives to
    its successive [bind] calls: the addresses it yields, in order, and
    how it stands when the answers end -- suspended with its sockets held
    open, or finished by an exception. *)
Fixpoint iter_available_sock_addrs (host : string) (stack : list (option N))
    (answers : list bind_result) : list string * outcome (list (option N)) :=
  match answers with
  | [] => ([], Returned stack)
  | answer :: answers' =>
      match loop_turn host stack answer with
      | (Yields addr, stack') =>
          let (addrs, final) := iter_available_sock_addrs host stack' answers' in
          (addr :: addrs, final)
      | (Continues, stack') => iter_available_sock_addrs host stack' answers'
      | (Raises e, _) => ([], Raised e)
      end
  end.

(** The operating system never binds a socket to a port that an open
    socket holds; it may fail a [bind] at will. *)
Definition os_allows (stack : list (option N)) (answer : bind_result) : Prop :=
  match answer with
  | Bound port => Some port ∉ stack
  | BindFails _ => True
  end.

(** The answers are ones the operating system can give to this run of the
    generator: each is allowed for the sockets the generator holds open
    when it asks. *)
Fixpoint os_consistent (host : string) (stack : list (option N))
    (answers : list bind_result) : Prop :=
  match answers with
  | [] => True
  | answer :: answers' =>
      os_allows stack answer /\
      match loop_turn host stack answer with
      | (Raises _, _) => True
      | (_, stack') => os_consistent host stack' answers'
      end
  end.

End PortReservation.

(** ** [cluster.py]: submission, monitoring and shutdown *)

Module Lifecycle.

Local Open Scope Z_scope.

Inductive FinalStatus : Type := UNDEFINED | SUCCEEDED | FAILED | KILLED.

#[global] Instance FinalStatus_eq_dec : EqDecision FinalStatus.
Proof. solve_decision. Defined.

Inductive TaskFlavor : Type := CPU | GPU.

Record TaskSpec : Type := mkTaskSpec {
  memory : Z;
  vcores : Z;
  instances : Z;
  flavor : TaskFlavor
}.

(** A value of the [task_specs] dictionary: the object [TaskSpec.NONE]
    itself, which the code recognises by identity, or any other
    [TaskSpec]. *)
Inductive task_ref : Type :=
| NONE
| Spec (ts : TaskSpec).

Definition deref (r : task_ref) : TaskSpec :=
  match r with
  | NONE => mkTaskSpec 0 0 0 CPU
  | Spec ts => ts
  end.

(** A container as [app.get_containers()] reports it. *)
Record Container : Type := mkContainer {
  id : string;
  state : string;
  yarn_container_logs : string
}.

(** [skein.Service(...)], with the fields [run] fills from a [TaskSpec]. *)
Record Service : Type := mkService {
  commands : list string;
  resources : Z * Z;
  service_instances : Z;
  node_label : string
}.

(** The calls that reach the resource manager or its client, and the
    sleeps between them. *)
Inductive call : Type :=
| ClientStart
| Submit (services : gmap string Service) (queue : string)
| Connect (app_id : string)
| Sleep (secs : Z)
| ApplicationReport (app_id : string)
| GetContainers
| Shutdown (status : string)
| ClientClose.

(** What the world does during one turn of the polling loop: [time.sleep]
    returns or is interrupted, [client.application_report] answers with a
    status or raises, [app.get_containers] answers or raises. *)
Record round : Type := mkRound {
  sleep_interrupt : option exn;
  report : outcome FinalStatus;
  get_containers : outcome (list Container)
}.

(** The resource manager as the coordinator sees it. *)
Record manager : Type := mkManager {
  submit_result : outcome string;
  connect_result : outcome unit;
  rounds : list round;
  shutdown_result : string -> outcome unit
}.

(** Computations that log their calls.  [None] stands for a call that has
    not returned when the manager's scripted [rounds] end: the loop is
    still polling. *)
Definition L (A : Type) : Type := list call -> option (outcome A) * list call.

(** The status label of the [finally] block, from the exception that
    [sys.exc_info()] reports. *)
Definition shutdown_status (exc_value : option exn) : string :=
  match exc_value with
  | Some KeyboardInterrupt | Some SystemExit => "KILLED"
  | Some _ => "FAILED"
  | None => "SUCCEEDED"
  end.

(** [with _shutdown(app) as app: body].  The [finally] block runs however
    the body ends.  [sys.exc_info()] reports the exception that is leaving
    the body; when the body returns it reports what the thread was handling
    around the [with] statement: [handled], which is [None] unless the
    statement runs inside an [except] block.  [app.shutdown(status)] is
    called, a [ConnectionError] from it is passed over, and then the body's
    outcome stands.  Any other exception from it replaces the body's
    outcome. *)
Definition with_shutdown {A} (mgr : manager) (handled : option exn)
    (body : L A) : L A := fun log =>
  match body log with
  | (None, log1) => (None, log1)
  | (Some r, log1) =>
      let exc_value := match r with Raised e => Some e | Returned _ => handled end in
      let status := shutdown_status exc_value in
      let log2 := log1 ++ [Shutdown status] in
      match shutdown_result mgr status with
      | Returned _ => (Some r, log2)
      | Raised ConnectionError => (Some r, log2)
      | Raised e => (Some (Raised e), log2)
      end
  end.

(** [containers[c.id] = (c.state, c.yarn_container_logs)] for each
    reported container. *)
Definition merge_containers (reported : list Container)
    (containers : gmap string (string * string)) : gmap string (string * string) :=
  foldl (fun m c => <[id c := (state c, yarn_container_logs c)]> m)
        containers reported.

(** How the [while] loop stands when the model stops following it. *)
Inductive loop_end : Type :=
| Exited                 (* the loop condition failed *)
| Escaped (e : exn)      (* an exception left the loop body *)
| Polling.               (* the scripted rounds ended first *)

Record loop_state : Type := mkLoop {
  final_status : FinalStatus;
  containers : gmap string (string * string);
  pending : list round;
  calls : list call
}.

(** [while final_status is FinalStatus.UNDEFINED: ...]. *)
Fixpoint poll_loop (app_id : string) (poll_every_secs : Z) (rs : list round)
    (st : FinalStatus) (cs : gmap string (string * string)) (log : list call)
    : loop_end * loop_state :=
  match st with
  | UNDEFINED =>
      match rs with
      | [] => (Polling, mkLoop st cs rs log)
      | r :: rs' =>
          let log1 := log ++ [Sleep poll_every_secs] in
          match sleep_interrupt r with
          | Some e => (Escaped e, mkLoop st cs rs' log1)
          | None =>
              let log2 := log1 ++ [ApplicationReport app_id] in
              match report r with
              | Raised e => (Escaped e, mkLoop st cs rs' log2)
              | Returned st' =>
                  let log3 := log2 ++ [GetContainers] in
                  match get_containers r with
                  | Raised e => (Escaped e, mkLoop st' cs rs' log3)
                  | Returned reported =>
                      poll_loop app_id poll_every_secs rs' st'
                        (merge_containers reported cs) log3
                  end
              end
          end
      end
  | _ => (Exited, mkLoop st cs rs log)
  end.

(** The body of the [with] statement of [_await_termination]: the loop
    inside [try ... except skein.exceptions.ConnectionError: pass], then
    [return final_status, containers]. *)
Definition monitor (mgr : manager) (app_id : string) (poll_every_secs : Z)
    : L (FinalStatus * gmap string (string * string)) := fun log =>
  match poll_loop app_id poll_every_secs (rounds mgr) UNDEFINED ∅ log with
  | (Polling, s) => (None, calls s)
  | (Exited, s) => (Some (Returned (final_status s, containers s)), calls s)
  | (Escaped ConnectionError, s) =>
      (Some (Returned (final_status s, containers s)), calls s)
  | (Escaped e, s) => (Some (Raised e), calls s)
  end.

Definition _await_termination (mgr : manager) (handled : option exn)
    (app_id : string) (poll_every_secs : Z)
    : L (FinalStatus * gmap string (string * string)) :=
  fun log =>
    let log1 := log ++ [Connect app_id] in
    match connect_result mgr with
    | Raised e => (Some (Raised e), log1)
    | Returned _ =>
        with_shutdown mgr handled (monitor mgr app_id poll_every_secs) log1
    end.

(** Notions used to state what the loop does.  A round is quiet when
    nothing raises in it: the sleep ends, the report carries [st] and the
    containers [reported] come back. *)
Definition quiet (st : FinalStatus) (reported : list Container) (r : round)
    : Prop :=
  sleep_interrupt r = None /\ report r = Returned st /\
  get_containers r = Returned reported.

(** A round in which the manager reports [UNDEFINED] and nothing raises. *)
Definition undecided (r : round) : Prop :=
  exists reported, quiet UNDEFINED reported r.

(** The calls of [n] full turns of the loop. *)
Definition polls (app_id : string) (poll_every_secs : Z) (n : nat) : list call :=
  concat (replicate n [Sleep poll_every_secs; ApplicationReport app_id; GetContainers]).

(** The containers seen over some rounds, merged in order. *)
Definition observed (rs : list round) (cs : gmap string (string * string))
    : gmap string (string * string) :=
  foldl (fun m r =>
           match get_containers r with
           | Returned reported => merge_containers reported m
           | Raised _ => m
           end) cs rs.

(** The record that the last container of [reported] with identifier [i]
    carries, if there is one. *)
Fixpoint last_record (i : string) (reported : list Container)
    : option (string * string) :=
  match reported with
  | [] => None
  | c :: rest =>
      match last_record i rest with
      | Some rec => Some rec
      | None =>
          if decide (id c = i) then Some (state c, yarn_container_logs c)
          else None
      end
  end.

(** The containers that the rounds report, in the order of the reports. *)
Definition reported_in (rs : list round) : list Container :=
  rs ≫= (fun r =>
           match get_containers r with
           | Returned reported => reported
           | Raised _ => []
           end).

(** [all_task_types]. *)
Definition all_task_types : gset string :=
  {[ "chief"; "worker"; "ps"; "evaluator" ]}.

(** [task_specs[key]] once [task_specs] is the
    [defaultdict(lambda: TaskSpec.NONE, task_specs)]: a missing key is
    inserted with the default. *)
Definition getitem_default (key : string) (task_specs : gmap string task_ref)
    : task_ref * gmap string task_ref :=
  match task_specs !! key with
  | Some r => (r, task_specs)
  | None => (NONE, <[key := NONE]> task_specs)
  end.

Section run.

(** What [run] takes from the rest of the package and from the
    interpreter: the name of the Python environment, the node label
    function, whether the packaging of files and environment between
    validation and submission ([env.create], [zip_inplace], [encode_fn])
    raises, the constant [__debug__] ([False] under [python -O], which
    drops every [assert]), and the exception the thread is handling when
    [run] is called, if any.  [application_spec] is what skein does with
    the services before a client is open -- the constructors
    [skein.Service] and [skein.ApplicationSpec], which validate what they
    are given (an empty mapping of services is refused with a
    [ValueError]), [skein.Security.from_new_directory] and the start of
    [skein.Client]: it returns, or it raises and no client is open.  The
    services are made while the files are still being packaged; [run]
    makes no call before both are done, and the model lets the error of
    the packaging come first. *)
Variable env_name : string.
Variable node_label_fn : TaskFlavor -> string.
Variable packaging : outcome unit.
Variable debug : bool.
Variable handled : option exn.
Variable application_spec : gmap string Service -> string -> outcome unit.

(** [assert task_specs[key].instances ...]: the lookup and the test are
    made only when [__debug__] holds. *)
Definition assert_instances (key : string) (test : Z -> bool)
    (task_specs : gmap string task_ref) : outcome (gmap string task_ref) :=
  if debug then
    let (r, task_specs') := getitem_default key task_specs in
    if test (instances (deref r)) then Returned task_specs'
    else Raised AssertionError
  else Returned task_specs.

Definition task_command (fl : TaskFlavor) (num_ps num_workers : Z) : string :=
  (env_name ++ match fl with CPU => "_cpu" | GPU => "_gpu" end)
  ++ "/bin/python -m tf_skein._dispatch_task "
  ++ "--num-ps=" ++ pretty num_ps ++ " "
  ++ "--num-workers=" ++ pretty num_workers ++ " ".

(** The loop filling [services]: entries that are [TaskSpec.NONE] are
    skipped. *)
Definition make_services (task_specs : gmap string task_ref)
    : gmap string Service :=
  let num_ps := instances (deref (default NONE (task_specs !! "ps"))) in
  let num_workers := instances (deref (default NONE (task_specs !! "worker"))) in
  omap (fun r =>
          match r with
          | NONE => None
          | Spec ts =>
              Some (mkService [task_command (flavor ts) num_ps num_workers]
                      (memory ts, vcores ts) (instances ts)
                      (node_label_fn (flavor ts)))
          end) task_specs.

(** [YARNCluster.run].  The message of the [ValueError] ends with the
    [repr] of a set, whose order Python does not fix; the model keeps the
    text before it. *)
Definition run (mgr : manager) (task_specs : gmap string task_ref)
    (queue : string) : L unit := fun log =>
  if decide (dom task_specs ⊆ all_task_types) then
    match assert_instances "evaluator" (fun n => n <=? 1) task_specs with
    | Raised e => (Some (Raised e), log)
    | Returned task_specs1 =>
        match assert_instances "chief" (fun n => n =? 1) task_specs1 with
        | Raised e => (Some (Raised e), log)
        | Returned task_specs2 =>
            match packaging with
            | Raised e => (Some (Raised e), log)
            | Returned _ =>
                let services := make_services task_specs2 in
                match application_spec services queue with
                | Raised e => (Some (Raised e), log)
                | Returned _ =>
                    let log1 := log ++ [ClientStart; Submit services queue] in
                    match submit_result mgr with
                    | Raised e => (Some (Raised e), log1 ++ [ClientClose])
                    | Returned app_id =>
                        match _await_termination mgr handled app_id 10 log1 with
                        | (None, log2) => (None, log2)
                        | (Some (Raised e), log2) =>
                            (Some (Raised e), log2 ++ [ClientClose])
                        | (Some (Returned _), log2) =>
                            (Some (Returned tt), log2 ++ [ClientClose])
                        end
                    end
                end
            end
        end
    end
  else (Some (Raised (ValueError "task_spec keys must be a subset of: ")), log).

End run.

(** An [application_spec] that refuses an empty mapping of services, as
    skein does, and takes every other. *)
Definition refuses_no_service (services : gmap string Service)
    (queue : string) : outcome unit :=
  if decide (dom services = ∅)
  then Raised (ValueError "There must be at least one service")
  else Returned tt.

(** The calls [_await_termination] makes: everything but opening and
    closing the client and submitting. *)
Definition monitoring_call (c : call) : Prop :=
  match c with
  | ClientStart | Submit _ _ | ClientClose => False
  | _ => True
  end.

End Lifecycle.

(** ** [MonitoredThread]: a thread that keeps the exception of its target *)

Module MonitoredThread.

(** The classes of [exn] that derive from [Exception]: all but
    [KeyboardInterrupt] and [SystemExit], which derive from [BaseException]
    only.  [OtherException] stands for any further subclass of
    [Exception]. *)
Definition is_Exception (e : exn) : bool :=
  match e with
  | KeyboardInterrupt | SystemExit => false
  | _ => true
  end.

(** The thread object: what calling its target does ([None] when the
    thread was made without a target), and the attribute [_exc]. *)
Record thread : Type := mkThread {
  target : option (outcome unit);
  _exc : option exn
}.



(** [Thread.run]: calls the target, if there is one. *)
Definition Thread_run (self : thread) : outcome unit :=
  match target self with
  | Some r => r
  | None => Returned tt
  end.

(** [run]: [try: super().run() except Exception as exc: self._exc = exc]. *)
Definition run (self : thread) : outcome unit * thread :=
  match Thread_run self with
  | Returned _ => (Returned tt, self)
  | Raised e =>
      if is_Exception e
      then (Returned tt, mkThread (target self) (Some e))
      else (Raised e, self)
  end.

End MonitoredThread.

(** * Properties *)

(** ** EnvironmentScope *)

Section EnvironmentScope_facts.

Import EnvironmentScope.

Implicit Types (kwargs : list (string * string)) (env : gmap string string).

Lemma truthy_false (s : string) : truthy s = false <-> s = EmptyString.
Proof. destruct s; simpl; split; congruence. Qed.

(** The first loop only reads the environment. *)
Lemma check_loop_reads kwargs env : (check_loop kwargs env).2 = env.
Proof.
  induction kwargs as [|[key value] rest IH]; simpl; [done|].
  unfold bind, environ_getitem. destruct (env !! key) as [v|]; [|done].
  destruct (truthy v); [done|]. apply IH.
Qed.

(** The first loop passes exactly when every name is present with an
    empty value. *)
Lemma check_loop_passes kwargs env :
  (check_loop kwargs env).1 = Returned tt <->
  Forall (fun kv => env !! kv.1 = Some EmptyString) kwargs.
Proof.
  induction kwargs as [|[key value] rest IH]; simpl.
  - split; [constructor | done].
  - unfold bind, environ_getitem.
    destruct (env !! key) as [v|] eqn:Hkey; simpl.
    + destruct (truthy v) eqn:Hv; simpl.
      * split; [done|]. intros H. apply Forall_cons_1 in H as [H _].
        simpl in H. rewrite Hkey in H. injection H as ->. done.
      * apply truthy_false in Hv as ->. rewrite IH. split.
        -- intros H. by constructor.
        -- intros H. by apply Forall_cons_1 in H as [_ H].
    + split; [done|]. intros H. apply Forall_cons_1 in H as [H _].
      simpl in H. congruence.
Qed.

(** A name that is not in the environment stops the first loop with the
    [KeyError] of [os.environ[key]], whatever follows it. *)
Lemma check_loop_fresh_name key value rest env :
  env !! key = None ->
  check_loop ((key, value) :: rest) env = (Raised (KeyError key), env).
Proof. intros H. simpl. unfold bind, environ_getitem. by rewrite H. Qed.

(** When the guard of the scope fails, entering fails with the guard's
    exception and the environment is as it was. *)
Lemma xset_environ_enter_guard_fails_clean kwargs env e :
  (check_loop kwargs env).1 = Raised e ->
  xset_environ_enter kwargs env = (Raised e, env).
Proof.
  unfold xset_environ_enter, bind. intros H.
  pose proof (check_loop_reads kwargs env) as Hr.
  destruct (check_loop kwargs env) as [[[]|e0] env0]; simpl in *; subst.
  - discriminate.
  - by injection H as ->.
Qed.

(** The update, when [os.putenv] takes every name and value. *)
Lemma environ_update_legal kwargs env :
  Forall (fun kv => putenv_error kv.1 kv.2 = None) kwargs ->
  environ_update kwargs env
  = (Returned tt, foldl (fun e kv => <[kv.1 := kv.2]> e) env kwargs).
Proof.
  revert env. induction kwargs as [|[key value] rest IH]; intros env Hall; [done|].
  apply Forall_cons_1 in Hall as [Hkv Hall]. simpl in *.
  unfold bind, environ_setitem. rewrite Hkv. by apply IH.
Qed.

(** The update, when it returns. *)
Lemma environ_update_Returned kwargs env env1 :
  environ_update kwargs env = (Returned tt, env1) ->
  env1 = foldl (fun e kv => <[kv.1 := kv.2]> e) env kwargs.
Proof.
  revert env. induction kwargs as [|[key value] rest IH]; intros env H.
  - simpl in H. by injection H as <-.
  - simpl in *. unfold bind, environ_setitem in H.
    destruct (putenv_error key value); [discriminate|]. by apply IH.
Qed.

(** The update stops at the first name or value [os.putenv] refuses, the
    names before it set. *)
Lemma environ_update_stops pre key value rest env e :
  Forall (fun kv => putenv_error kv.1 kv.2 = None) pre ->
  putenv_error key value = Some e ->
  environ_update (pre ++ (key, value) :: rest) env
  = (Raised e, foldl (fun e kv => <[kv.1 := kv.2]> e) env pre).
Proof.
  revert env. induction pre as [|[k v] pre IH]; intros env Hpre Hbad.
  - simpl. unfold bind, environ_setitem. by rewrite Hbad.
  - apply Forall_cons_1 in Hpre as [Hkv Hpre]. simpl in *.
    unfold bind, environ_setitem. rewrite Hkv. by apply IH.
Qed.

Lemma update_lookup_notin kwargs env k :
  k ∉ kwargs.*1 ->
  foldl (fun e kv => <[kv.1 := kv.2]> e) env kwargs !! k = env !! k.
Proof.
  revert env. induction kwargs as [|[key value] rest IH]; intros env Hk; [done|].
  simpl in *. apply not_elem_of_cons in Hk as [Hne Hk].
  rewrite IH by done. by rewrite lookup_insert_ne.
Qed.

Lemma update_lookup_in kwargs env k v :
  NoDup kwargs.*1 -> (k, v) ∈ kwargs ->
  foldl (fun e kv => <[kv.1 := kv.2]> e) env kwargs !! k = Some v.
Proof.
  revert env. induction kwargs as [|[key value] rest IH]; intros env Hnd Hin.
  - by apply elem_of_nil in Hin.
  - simpl in *. apply NoDup_cons in Hnd as [Hfresh Hnd].
    apply elem_of_cons in Hin as [Heq|Hin].
    + injection Heq as -> ->. rewrite update_lookup_notin by done.
      apply lookup_insert_eq.
    + by apply IH.
Qed.

(** What entering the scope does when it succeeds. *)
Lemma xset_environ_enter_Returned kwargs env env1 :
  xset_environ_enter kwargs env = (Returned tt, env1) ->
  env1 = foldl (fun e kv => <[kv.1 := kv.2]> e) env kwargs.
Proof.
  unfold xset_environ_enter, bind. intros H.
  pose proof (check_loop_reads kwargs env) as Hr.
  destruct (check_loop kwargs env) as [[[]|e0] env0]; simpl in *; subst.
  - by apply environ_update_Returned.
  - discriminate.
Qed.

(** The loop behind the [yield], when every name is still there. *)
Lemma pop_loop_all_present kwargs env :
  NoDup kwargs.*1 ->
  (forall k, k ∈ kwargs.*1 -> is_Some (env !! k)) ->
  exists env',
    pop_loop kwargs env = (Returned tt, env') /\
    (forall k, k ∈ kwargs.*1 -> env' !! k = None) /\
    (forall j, j ∉ kwargs.*1 -> env' !! j = env !! j).
Proof.
  revert env. induction kwargs as [|[key value] rest IH]; intros env Hnd Hall.
  - exists env. split; [done|]. split; [|done].
    intros k Hk. by apply elem_of_nil in Hk.
  - simpl in *. apply NoDup_cons in Hnd as [Hfresh Hnd].
    destruct (Hall key) as [v Hv]; [left|].
    destruct (IH (delete key env) Hnd) as (env' & Hrun & Hgone & Hkept).
    { intros k Hk. rewrite lookup_delete_ne; [apply Hall; by right|].
      intros ->. done. }
    exists env'. split; [|split].
    + unfold bind, except_KeyError, environ_pop. rewrite Hv. exact Hrun.
    + intros k Hk. apply elem_of_cons in Hk as [->|Hk]; [|by apply Hgone].
      rewrite Hkept by done. apply lookup_delete_eq.
    + intros j Hj. apply not_elem_of_cons in Hj as [Hne Hj].
      rewrite Hkept by done. by rewrite lookup_delete_ne.
Qed.

(** The loop behind the [yield], when a name has gone missing. *)
Lemma pop_loop_one_missing kwargs env k :
  NoDup kwargs.*1 -> k ∈ kwargs.*1 -> env !! k = None ->
  exists k' env',
    k' ∈ kwargs.*1 /\ env !! k' = None /\
    pop_loop kwargs env = (Raised (is_missing k'), env').
Proof.
  revert env. induction kwargs as [|[key value] rest IH]; intros env Hnd Hk Hnone.
  - by apply elem_of_nil in Hk.
  - simpl in *. apply NoDup_cons in Hnd as [Hfresh Hnd].
    destruct (env !! key) as [v|] eqn:Hkey.
    + apply elem_of_cons in Hk as [->|Hk]; [congruence|].
      destruct (IH (delete key env) Hnd Hk) as (k' & env' & Hin & Hk' & Hrun).
      { rewrite lookup_delete_ne; [done|]. intros ->. done. }
      exists k', env'. split; [by right|]. split.
      * rewrite lookup_delete_ne in Hk'; [done|]. intros ->. done.
      * unfold bind, except_KeyError, environ_pop. rewrite Hkey. exact Hrun.
    + exists key, env. split; [left|]. split; [done|].
      unfold bind, except_KeyError, environ_pop. by rewrite Hkey.
Qed.

(** C2 (the code departs from it).  Entering the scope is claimed to fail
    exactly when a name of the mapping is already in the environment, and
    to set every name otherwise.  The test the code makes is
    [if os.environ[key]], not [if key in os.environ]: with an empty
    environment entering raises the [KeyError] of the lookup and sets
    nothing, and a name that is present with an empty value is not
    reported but overwritten. *)
Theorem xset_environ_enter_fresh_name_KeyError :
  xset_environ_enter [("TF_CONFIG", "{}")] ∅
    = (Raised (KeyError "TF_CONFIG"), ∅) /\
  xset_environ_enter [("TF_CONFIG", "{}")] {[ "TF_CONFIG" := "" ]}
    = (Returned tt, {[ "TF_CONFIG" := "{}" ]}).
Proof. split; reflexivity. Qed.

(** C1 (the code departs from it).  Leaving the scope is claimed to
    remove every variable the scope set, whether the body returns or
    raises.  The loop that removes them stands behind a [yield] that no
    [try ... finally] protects: when the body raises, its exception leaves
    the [with] statement and the variable stays set.  When the body
    returns the variable is removed, and when the body itself has removed
    it the [RuntimeError] is raised, as claimed. *)
Theorem xset_environ_body_raises_leaves_name_set :
  with_xset_environ [("TF_CONFIG", "{}")]
    (raise (A:=unit) (ValueError "no such model")) {[ "TF_CONFIG" := "" ]}
  = (Raised (ValueError "no such model"), {[ "TF_CONFIG" := "{}" ]}) /\
  with_xset_environ [("TF_CONFIG", "{}")] (ret tt) {[ "TF_CONFIG" := "" ]}
  = (Returned tt, ∅) /\
  with_xset_environ [("TF_CONFIG", "{}")]
    (fun env => (Returned tt, delete "TF_CONFIG" env)) {[ "TF_CONFIG" := "" ]}
  = (Raised (is_missing "TF_CONFIG"), ∅).
Proof. repeat split; reflexivity. Qed.

(** The scope on each of its paths.  Once the scope is entered every
    name of the mapping is set.  When the body returns and every name is
    still set, leaving the scope removes them all and touches nothing
    else; when the body returns and a name has gone missing, leaving the scope raises the
    [RuntimeError] that names a missing variable; when the body raises,
    its exception leaves the scope and the environment stays as the body
    left it. *)
Lemma xset_environ_scope_exit kwargs (body : EnvM unit) env env1 :
  NoDup kwargs.*1 ->
  xset_environ_enter kwargs env = (Returned tt, env1) ->
  (forall k v, (k, v) ∈ kwargs -> env1 !! k = Some v) /\
  (forall env2, body env1 = (Returned tt, env2) ->
     ((forall k, k ∈ kwargs.*1 -> is_Some (env2 !! k)) ->
      exists env3,
        with_xset_environ kwargs body env = (Returned tt, env3) /\
        (forall k, k ∈ kwargs.*1 -> env3 !! k = None) /\
        (forall j, j ∉ kwargs.*1 -> env3 !! j = env2 !! j)) /\
     (forall k, k ∈ kwargs.*1 -> env2 !! k = None ->
      exists k' env3,
        k' ∈ kwargs.*1 /\ env2 !! k' = None /\
        with_xset_environ kwargs body env = (Raised (is_missing k'), env3))) /\
  (forall e env2, body env1 = (Raised e, env2) ->
     with_xset_environ kwargs body env = (Raised e, env2)).
Proof.
  intros Hnd Henter. split; [|split].
  - intros k v Hin. rewrite (xset_environ_enter_Returned _ _ _ Henter).
    by apply update_lookup_in.
  - intros env2 Hbody. split.
    + intros Hall.
      destruct (pop_loop_all_present kwargs env2 Hnd Hall)
        as (env3 & Hrun & Hgone & Hkept).
      exists env3. split; [|done].
      unfold with_xset_environ, xset_environ_exit.
      by rewrite Henter, Hbody, Hrun.
    + intros k Hk Hnone.
      destruct (pop_loop_one_missing kwargs env2 k Hnd Hk Hnone)
        as (k' & env3 & Hin & Hk' & Hrun).
      exists k', env3. split; [done|]. split; [done|].
      unfold with_xset_environ, xset_environ_exit.
      by rewrite Henter, Hbody, Hrun.
  - intros e env2 Hbody. unfold with_xset_environ.
    by rewrite Henter, Hbody.
Qed.

(** [xset_environ_scope_exit] at a scope that sets one variable over an
    empty value, with a body that does nothing, a body that removes the
    variable, and a body that raises. *)
Lemma xset_environ_scope_exit_witness :
  NoDup ([("TF_CONFIG", "{}")] : list (string * string)).*1 /\
  xset_environ_enter [("TF_CONFIG", "{}")] {[ "TF_CONFIG" := "" ]}
    = (Returned tt, {[ "TF_CONFIG" := "{}" ]}) /\
  (exists env3,
     with_xset_environ [("TF_CONFIG", "{}")] (ret tt) {[ "TF_CONFIG" := "" ]}
       = (Returned tt, env3) /\
     env3 !! "TF_CONFIG" = None) /\
  (exists k' env3,
     with_xset_environ [("TF_CONFIG", "{}")]
       (fun env => (Returned tt, delete "TF_CONFIG" env)) {[ "TF_CONFIG" := "" ]}
       = (Raised (is_missing k'), env3)) /\
  with_xset_environ [("TF_CONFIG", "{}")] (raise (A:=unit) KeyboardInterrupt)
    {[ "TF_CONFIG" := "" ]}
  = (Raised KeyboardInterrupt, {[ "TF_CONFIG" := "{}" ]}).
Proof.
  assert (Hnd : NoDup ([("TF_CONFIG", "{}")] : list (string * string)).*1)
    by apply NoDup_singleton.
  assert (Henter :
    xset_environ_enter [("TF_CONFIG", "{}")] {[ "TF_CONFIG" := "" ]}
      = (Returned tt, {[ "TF_CONFIG" := "{}" ]})) by reflexivity.
  assert (Hin : "TF_CONFIG" ∈ ([("TF_CONFIG", "{}")] : list (string * string)).*1).
  { apply list_elem_of_singleton. reflexivity. }
  split; [exact Hnd|]. split; [exact Henter|]. split; [|split].
  - destruct (xset_environ_scope_exit _ (ret tt) _ _ Hnd Henter)
      as (_ & Hret & _).
    destruct (Hret {[ "TF_CONFIG" := "{}" ]} eq_refl) as [Hall _].
    destruct Hall as (env3 & Hrun & Hgone & _).
    + intros k Hk. apply list_elem_of_singleton in Hk as ->.
      rewrite lookup_singleton_eq. by eexists.
    + exists env3. split; [exact Hrun|]. by apply Hgone.
  - destruct (xset_environ_scope_exit _
                (fun env => (Returned tt, delete "TF_CONFIG" env)) _ _ Hnd Henter)
      as (_ & Hret & _).
    destruct (Hret (delete "TF_CONFIG" {[ "TF_CONFIG" := "{}" ]}) eq_refl)
      as [_ Hmissing].
    destruct (Hmissing "TF_CONFIG" Hin) as (k' & env3 & _ & _ & Hrun).
    + apply lookup_delete_eq.
    + by exists k', env3.
  - destruct (xset_environ_scope_exit _ (raise KeyboardInterrupt) _ _ Hnd Henter)
      as (_ & _ & Hraise).
    by apply Hraise.
Defined.

End EnvironmentScope_facts.

(** ** ClusterSpecBuilder *)

Section ClusterSpecBuilder_facts.

Import ClusterSpecBuilder.

Implicit Types (spec : gmap string (list string)) (kv : gmap string string).
Implicit Types (reserved addrs log : list string) (todo : list Z).

Lemma length_range (n : Z) : length (range n) = Z.to_nat n.
Proof. apply length_seqZ. Qed.

Lemma extend_setdefault_append role addr addrs spec :
  extend role addrs (setdefault_append role addr spec)
  = extend role (addr :: addrs) spec.
Proof.
  unfold setdefault_append. destruct addrs as [|a addrs]; simpl; [done|].
  rewrite lookup_insert_eq, insert_insert_eq. simpl.
  by rewrite <- app_assoc.
Qed.

Lemma extend_lookup role addrs spec r :
  extend role addrs spec !! r =
  if decide (r = role)
  then match addrs with
       | [] => spec !! role
       | _ => Some (default [] (spec !! role) ++ addrs)
       end
  else spec !! r.
Proof.
  destruct addrs as [|a addrs]; simpl.
  - by destruct (decide (r = role)) as [->|].
  - destruct (decide (r = role)) as [->|Hne].
    + by rewrite lookup_insert_eq.
    + by rewrite lookup_insert_ne.
Qed.

Lemma extend_dom role addrs spec :
  dom (extend role addrs spec) =
  (match addrs with [] => ∅ | _ => {[ role ]} end) ∪ dom spec.
Proof.
  destruct addrs as [|a addrs]; simpl.
  - by rewrite (left_id_L ∅ (∪)).
  - by rewrite dom_insert_L.
Qed.

(** The loop of [_spec_from_iter], when the iterator has an address for
    each turn. *)
Lemma append_from_iter_enough role todo spec reserved :
  (length todo <= length reserved)%nat ->
  append_from_iter role todo spec reserved
  = (Returned (extend role (take (length todo) reserved) spec),
     drop (length todo) reserved).
Proof.
  revert spec reserved.
  induction todo as [|idx todo IH]; intros spec reserved Hlen; simpl.
  - done.
  - destruct reserved as [|addr reserved]; simpl in Hlen; [lia|].
    unfold bind. simpl. rewrite IH by lia.
    by rewrite extend_setdefault_append.
Qed.

(** The loop of [_spec_from_iter], when the iterator runs dry. *)
Lemma append_from_iter_short role todo spec reserved :
  (length reserved < length todo)%nat ->
  append_from_iter role todo spec reserved = (Raised StopIteration, []).
Proof.
  revert spec reserved.
  induction todo as [|idx todo IH]; intros spec reserved Hlen; simpl in *; [lia|].
  destruct reserved as [|addr reserved]; unfold bind; simpl; [done|].
  simpl in Hlen. apply IH. lia.
Qed.

(** [_spec_from_iter] in closed form. *)
Lemma _spec_from_iter_enough num_workers num_ps chief reserved :
  (Z.to_nat num_workers + Z.to_nat num_ps <= length reserved)%nat ->
  _spec_from_iter num_workers num_ps (chief :: reserved)
  = (Returned
       (extend "ps" (take (Z.to_nat num_ps) (drop (Z.to_nat num_workers) reserved))
          (extend "worker" (take (Z.to_nat num_workers) reserved)
             {[ "chief" := [chief] ]})),
     drop (Z.to_nat num_ps) (drop (Z.to_nat num_workers) reserved)).
Proof.
  intros Hlen. unfold _spec_from_iter, bind. simpl.
  rewrite append_from_iter_enough by (rewrite length_range; lia).
  rewrite append_from_iter_enough by (rewrite !length_range, length_drop; lia).
  by rewrite !length_range.
Qed.

(** Lookups in the table both builders end with. *)
Lemma table_lookup_chief chief workers pss :
  extend "ps" pss (extend "worker" workers {[ "chief" := [chief] ]}) !! "chief"
  = Some [chief].
Proof.
  rewrite !extend_lookup.
  repeat (case_decide; [discriminate|]). by rewrite lookup_singleton_eq.
Qed.

Lemma table_lookup_worker chief workers pss :
  extend "ps" pss (extend "worker" workers {[ "chief" := [chief] ]}) !! "worker"
  = match workers with [] => None | _ => Some workers end.
Proof.
  rewrite !extend_lookup.
  case_decide; [discriminate|]. case_decide; [|done].
  rewrite lookup_singleton_ne by discriminate. by destruct workers.
Qed.

Lemma table_lookup_ps chief workers pss :
  extend "worker" workers (extend "ps" pss {[ "chief" := [chief] ]}) !! "ps"
  = match pss with [] => None | _ => Some pss end.
Proof.
  rewrite !extend_lookup.
  case_decide; [discriminate|]. case_decide; [|done].
  rewrite lookup_singleton_ne by discriminate. by destruct pss.
Qed.

(** The two appends go to different keys, so their order does not show. *)
Lemma extend_comm workers pss spec :
  extend "ps" pss (extend "worker" workers spec)
  = extend "worker" workers (extend "ps" pss spec).
Proof.
  destruct workers as [|w workers], pss as [|p pss]; simpl; try done.
  rewrite !lookup_insert_ne by discriminate.
  by rewrite insert_insert_ne by discriminate.
Qed.

Lemma table_dom chief workers pss :
  dom (extend "ps" pss (extend "worker" workers {[ "chief" := [chief] ]}))
  = {[ "chief" ]} ∪ (match workers with [] => ∅ | _ => {[ "worker" ]} end)
                  ∪ (match pss with [] => ∅ | _ => {[ "ps" ]} end).
Proof. rewrite !extend_dom, dom_singleton_L. set_solver. Qed.

Lemma length_slots role n : length (slots role n) = Z.to_nat n.
Proof. unfold slots. by rewrite length_fmap, length_range. Qed.

(** Reading the slots of one role back from a table gives the list stored
    under the role. *)
Lemma slots_endpoints spec role addrs n :
  spec !! role = match addrs with [] => None | _ => Some addrs end ->
  length addrs = Z.to_nat n ->
  endpoint_at spec <$> slots role n = Some <$> addrs.
Proof.
  intros Hrole Hlen. apply list_eq. intros i.
  unfold slots, range. rewrite !list_lookup_fmap.
  destruct (decide (i < Z.to_nat n)%nat) as [Hi|Hi].
  - rewrite lookup_seqZ_lt by lia. simpl. unfold endpoint_at. simpl.
    destruct addrs as [|a addrs]; [simpl in Hlen; lia|].
    rewrite Hrole. simpl.
    replace (Z.to_nat (0 + Z.of_nat i)) with i by lia.
    destruct (lookup_lt_is_Some_2 (a :: addrs) i) as [x Hx]; [lia|].
    by rewrite Hx.
  - rewrite lookup_seqZ_ge by lia. simpl.
    by rewrite lookup_ge_None_2 by lia.
Qed.

Lemma slot_keys role n : slot_key <$> slots role n = barrier_key role <$> range n.
Proof. unfold slots. by rewrite <- list_fmap_compose. Qed.

(** The loop of [_spec_from_kv] logs the keys in order, up to the first
    one that is not published. *)
Lemma append_from_kv_log kv role todo spec log :
  exists m,
    (m <= length todo)%nat /\
    (append_from_kv kv role todo spec log).2
      = log ++ take m (barrier_key role <$> todo) /\
    (forall spec', (append_from_kv kv role todo spec log).1 = Got spec' ->
                   m = length todo).
Proof.
  revert spec log. induction todo as [|idx todo IH]; intros spec log; simpl.
  - exists 0%nat. split; [lia|]. split; [by rewrite app_nil_r | done].
  - unfold kv_wait. destruct (kv !! barrier_key role idx) as [addr|].
    + destruct (IH (setdefault_append role addr spec) (log ++ [barrier_key role idx]))
        as (m & Hm & Hlog & Hfull).
      exists (S m). split; [lia|]. split.
      * rewrite Hlog. simpl. by rewrite <- app_assoc.
      * intros spec' Hgot. by rewrite (Hfull spec' Hgot).
    + exists 1%nat. split; [lia|]. split; done.
Qed.

(** The loop of [_spec_from_kv], when every key it asks for is
    published. *)
Lemma append_from_kv_supplied kv role todo spec log :
  Forall (fun idx => is_Some (kv !! barrier_key role idx)) todo ->
  append_from_kv kv role todo spec log
  = (Got (extend role (omap (fun idx => kv !! barrier_key role idx) todo) spec),
     log ++ (barrier_key role <$> todo)).
Proof.
  revert spec log. induction todo as [|idx todo IH]; intros spec log Hall; simpl.
  - by rewrite app_nil_r.
  - apply Forall_cons_1 in Hall as [[addr Haddr] Hall].
    unfold kv_wait. rewrite Haddr. rewrite IH by done.
    by rewrite extend_setdefault_append, <- app_assoc.
Qed.

Lemma kv_values_range kv role n :
  kv_values kv role n = omap (fun idx => kv !! barrier_key role idx) (range n).
Proof.
  unfold kv_values, slots. generalize (range n). intros l.
  induction l as [|idx l IH]; [done|].
  rewrite fmap_cons. unfold omap in *. simpl. by rewrite IH.
Qed.

Lemma length_kv_values kv role n :
  (forall slot, slot ∈ slots role n -> is_Some (kv !! slot_key slot)) ->
  length (kv_values kv role n) = Z.to_nat n.
Proof.
  intros Hall. rewrite <- (length_slots role n). unfold kv_values.
  induction (slots role n) as [|slot l IH]; [done|]. simpl.
  destruct (Hall slot) as [addr ->]; [left|]. simpl. f_equal.
  apply IH. intros slot' Hin. apply Hall. by right.
Qed.

(** The values stored for the slots of one role, read slot by slot. *)
Lemma kv_values_lookups kv role n :
  (forall slot, slot ∈ slots role n -> is_Some (kv !! slot_key slot)) ->
  (fun slot => kv !! slot_key slot) <$> slots role n
  = Some <$> kv_values kv role n.
Proof.
  intros Hall. unfold kv_values.
  induction (slots role n) as [|slot l IH]; [done|]. simpl.
  destruct (Hall slot) as [addr Haddr]; [left|]. rewrite Haddr. simpl.
  f_equal. apply IH. intros slot' Hin. apply Hall. by right.
Qed.

(** [_spec_from_kv] in closed form. *)
Lemma _spec_from_kv_supplied kv num_workers num_ps log :
  (forall slot, slot ∈ kv_order num_workers num_ps ->
                is_Some (kv !! slot_key slot)) ->
  exists chief,
    kv !! "chief:0" = Some chief /\
    _spec_from_kv kv num_workers num_ps log
    = (Got (extend "worker" (kv_values kv "worker" num_workers)
              (extend "ps" (kv_values kv "ps" num_ps) {[ "chief" := [chief] ]})),
       log ++ (slot_key <$> kv_order num_workers num_ps)).
Proof.
  intros Hall.
  destruct (Hall ("chief", 0%Z)) as [chief Hchief]; [left|].
  change (slot_key ("chief", 0%Z)) with "chief:0" in Hchief.
  exists chief. split; [done|].
  unfold _spec_from_kv, kv_wait. rewrite Hchief.
  rewrite append_from_kv_supplied.
  2:{ apply Forall_forall. intros idx Hidx.
      apply (Hall ("ps", idx)). right. apply elem_of_app. left.
      unfold slots. apply list_elem_of_fmap. by exists idx. }
  rewrite append_from_kv_supplied.
  2:{ apply Forall_forall. intros idx Hidx.
      apply (Hall ("worker", idx)). right. apply elem_of_app. right.
      unfold slots. apply list_elem_of_fmap. by exists idx. }
  rewrite <- !kv_values_range. f_equal.
  unfold kv_order. rewrite fmap_cons, fmap_app, !slot_keys.
  change (slot_key ("chief", 0%Z)) with "chief:0".
  by rewrite <- !app_assoc.
Qed.

(** [_spec_from_iter] on an iterator that has an address for every slot:
    the first goes to the chief, the next [num_workers] to the workers, the
    next [num_ps] to the parameter servers. *)
Lemma _spec_from_iter_table num_workers num_ps reserved :
  (length (iter_order num_workers num_ps) <= length reserved)%nat ->
  exists chief workers pss,
    take (length (iter_order num_workers num_ps)) reserved
      = chief :: workers ++ pss /\
    length workers = Z.to_nat num_workers /\
    length pss = Z.to_nat num_ps /\
    _spec_from_iter num_workers num_ps reserved
    = (Returned (extend "ps" pss (extend "worker" workers {[ "chief" := [chief] ]})),
       drop (length (iter_order num_workers num_ps)) reserved).
Proof.
  unfold iter_order. rewrite length_cons, length_app, !length_slots.
  intros Hlen. destruct reserved as [|chief reserved]; simpl in Hlen; [lia|].
  exists chief, (take (Z.to_nat num_workers) reserved),
    (take (Z.to_nat num_ps) (drop (Z.to_nat num_workers) reserved)).
  split; [|split; [|split]].
  - simpl. by rewrite take_take_drop.
  - apply length_take_le. lia.
  - apply length_take_le. rewrite length_drop. lia.
  - rewrite _spec_from_iter_enough by lia. simpl. by rewrite drop_drop.
Qed.

(** What can be read from the table both builders end with. *)
Lemma table_facts chief workers pss num_workers num_ps :
  length workers = Z.to_nat num_workers ->
  length pss = Z.to_nat num_ps ->
  let spec := extend "ps" pss (extend "worker" workers {[ "chief" := [chief] ]}) in
  spec !! "chief" = Some [chief] /\
  ((0 < num_workers)%Z -> spec !! "worker" = Some workers) /\
  ((0 < num_ps)%Z -> spec !! "ps" = Some pss) /\
  endpoint_at spec ("chief", 0%Z) = Some chief /\
  endpoint_at spec <$> slots "worker" num_workers = Some <$> workers /\
  endpoint_at spec <$> slots "ps" num_ps = Some <$> pss /\
  dom spec = expected_keys num_workers num_ps /\
  (forall role addrs, spec !! role = Some addrs -> addrs <> []).
Proof.
  intros Hw Hp spec.
  assert (Hchief : spec !! "chief" = Some [chief]) by apply table_lookup_chief.
  assert (Hworker : spec !! "worker"
                    = match workers with [] => None | _ => Some workers end)
    by apply table_lookup_worker.
  assert (Hps : spec !! "ps" = match pss with [] => None | _ => Some pss end).
  { unfold spec. rewrite extend_comm. apply table_lookup_ps. }
  split; [done|]. split; [|split; [|split; [|split; [|split; [|split]]]]].
  - intros Hpos. rewrite Hworker. destruct workers; [simpl in Hw; lia|done].
  - intros Hpos. rewrite Hps. destruct pss; [simpl in Hp; lia|done].
  - unfold endpoint_at. simpl. by rewrite Hchief.
  - by apply slots_endpoints.
  - by apply slots_endpoints.
  - unfold spec, expected_keys. rewrite table_dom.
    destruct workers, pss; simpl in Hw, Hp;
      repeat case_decide; try lia; done.
  - intros role addrs Hl.
    destruct (decide (role = "ps")) as [->|Hnps].
    { rewrite Hps in Hl. destruct pss; congruence. }
    destruct (decide (role = "worker")) as [->|Hnw].
    { rewrite Hworker in Hl. destruct workers; congruence. }
    unfold spec in Hl.
    rewrite extend_lookup, decide_False, extend_lookup, decide_False in Hl by done.
    apply lookup_singleton_Some in Hl as [_ <-]. done.
Qed.

(** C5, as stated, fails for [_spec_from_iter]: with one worker and one
    parameter server the second address drawn goes to [worker:0], not to
    [ps:0]. *)
Lemma spec_from_iter_draws_workers_before_ps :
  ~ (forall num_workers num_ps reserved spec rest,
       (0 <= num_workers)%Z -> (0 <= num_ps)%Z ->
       _spec_from_iter num_workers num_ps reserved = (Returned spec, rest) ->
       endpoint_at spec <$> kv_order num_workers num_ps
       = Some <$> take (length (kv_order num_workers num_ps)) reserved).
Proof.
  intros H.
  pose proof (H 1%Z 1%Z ["h:1"; "h:2"; "h:3"] _ _
                ltac:(lia) ltac:(lia) eq_refl) as Habs.
  vm_compute in Habs. discriminate.
Qed.

(** C5, amended.  [_spec_from_kv] waits on [chief:0], then on the [ps:i]
    in index order, then on the [worker:i] in index order: the keys it has
    waited on are always a beginning of that sequence, and all of it when
    every key is published.  [_spec_from_iter] gives the addresses it
    draws to [chief:0], then to the [worker:i] in index order, then to the
    [ps:i] in index order. *)
Theorem spec_builders_resolution_order num_workers num_ps :
  (forall kv log,
     (exists m,
        (_spec_from_kv kv num_workers num_ps log).2
        = log ++ take m (slot_key <$> kv_order num_workers num_ps)) /\
     ((forall slot, slot ∈ kv_order num_workers num_ps ->
                    is_Some (kv !! slot_key slot)) ->
      (_spec_from_kv kv num_workers num_ps log).2
      = log ++ (slot_key <$> kv_order num_workers num_ps))) /\
  (forall reserved,
     (length (iter_order num_workers num_ps) <= length reserved)%nat ->
     exists spec,
       _spec_from_iter num_workers num_ps reserved
       = (Returned spec, drop (length (iter_order num_workers num_ps)) reserved) /\
       endpoint_at spec <$> iter_order num_workers num_ps
       = Some <$> take (length (iter_order num_workers num_ps)) reserved).
Proof.
  split.
  - intros kv log. split.
    + unfold _spec_from_kv, kv_wait, kv_order.
      rewrite fmap_cons, fmap_app, !slot_keys.
      change (slot_key ("chief", 0%Z)) with "chief:0".
      destruct (kv !! "chief:0") as [chief|]; [|by exists 1%nat].
      pose proof (append_from_kv_log kv "ps" (range num_ps)
                    {[ "chief" := [chief] ]} (log ++ ["chief:0"]))
        as (m1 & Hm1 & Hlog1 & Hfull1).
      destruct (append_from_kv kv "ps" (range num_ps) _ _) as [[spec1|key] log1];
        simpl in *.
      * rewrite (Hfull1 spec1 eq_refl) in Hlog1.
        rewrite <- (length_fmap (barrier_key "ps")), firstn_all in Hlog1.
        pose proof (append_from_kv_log kv "worker" (range num_workers) spec1 log1)
          as (m2 & Hm2 & Hlog2 & _).
        exists (S (length (barrier_key "ps" <$> range num_ps) + m2)).
        destruct (append_from_kv kv "worker" _ _ _) as [r2 log2]; simpl in *.
        rewrite Hlog2, Hlog1, take_app_add. by rewrite <- !app_assoc.
      * exists (S m1). rewrite Hlog1. simpl.
        rewrite take_app_le by (rewrite length_fmap; lia).
        by rewrite <- app_assoc.
    + intros Hall.
      destruct (_spec_from_kv_supplied kv num_workers num_ps log Hall)
        as (chief & _ & ->). done.
  - intros reserved Hlen.
    destruct (_spec_from_iter_table num_workers num_ps reserved Hlen)
      as (chief & workers & pss & Htake & Hw & Hp & Hrun).
    eexists. split; [exact Hrun|]. rewrite Htake.
    destruct (table_facts chief workers pss num_workers num_ps Hw Hp)
      as (_ & _ & _ & Hc & Hws & Hpss & _).
    unfold iter_order. rewrite !fmap_cons, !fmap_app. by rewrite Hc, Hws, Hpss.
Qed.

(** The amended C5 with two workers and one parameter server. *)
Lemma spec_builders_resolution_order_witness :
  (_spec_from_kv
     (list_to_map [("chief:0", "h:1"); ("ps:0", "h:2");
                   ("worker:0", "h:3"); ("worker:1", "h:4")]) 2 1 []).2
  = ["chief:0"; "ps:0"; "worker:0"; "worker:1"] /\
  exists spec,
    _spec_from_iter 2 1 ["h:1"; "h:2"; "h:3"; "h:4"; "h:5"]
    = (Returned spec, ["h:5"]) /\
    endpoint_at spec <$> [("chief", 0%Z); ("worker", 0%Z); ("worker", 1%Z); ("ps", 0%Z)]
    = [Some "h:1"; Some "h:2"; Some "h:3"; Some "h:4"].
Proof.
  destruct (spec_builders_resolution_order 2 1) as [Hkv Hiter]. split.
  - destruct (Hkv (list_to_map [("chief:0", "h:1"); ("ps:0", "h:2");
                                ("worker:0", "h:3"); ("worker:1", "h:4")]) [])
      as [_ Hall].
    apply Hall. intros slot Hslot. vm_compute in Hslot.
    repeat (apply elem_of_cons in Hslot as [->|Hslot]; [by eexists|]).
    by apply elem_of_nil in Hslot.
  - apply (Hiter ["h:1"; "h:2"; "h:3"; "h:4"; "h:5"]). vm_compute. lia.
Defined.

Lemma fmap_eq_elem {A B} (f g : A -> B) (l : list A) x :
  f <$> l = g <$> l -> x ∈ l -> f x = g x.
Proof.
  induction l as [|y l IH]; intros Heq Hin; [by apply elem_of_nil in Hin|].
  rewrite !fmap_cons in Heq. injection Heq as Hy Hl.
  apply elem_of_cons in Hin as [->|Hin]; [done|by apply IH].
Qed.

(** [_spec_from_kv] on a store that has a value for every slot. *)
Lemma _spec_from_kv_table kv num_workers num_ps log :
  (forall slot, slot ∈ kv_order num_workers num_ps ->
                is_Some (kv !! slot_key slot)) ->
  exists chief workers pss,
    kv !! "chief:0" = Some chief /\
    (fun slot => kv !! slot_key slot) <$> slots "worker" num_workers
      = Some <$> workers /\
    (fun slot => kv !! slot_key slot) <$> slots "ps" num_ps = Some <$> pss /\
    length workers = Z.to_nat num_workers /\
    length pss = Z.to_nat num_ps /\
    _spec_from_kv kv num_workers num_ps log
    = (Got (extend "ps" pss (extend "worker" workers {[ "chief" := [chief] ]})),
       log ++ (slot_key <$> kv_order num_workers num_ps)).
Proof.
  intros Hall.
  assert (Hw : forall slot, slot ∈ slots "worker" num_workers ->
                            is_Some (kv !! slot_key slot)).
  { intros slot Hin. apply Hall. right. apply elem_of_app. by right. }
  assert (Hp : forall slot, slot ∈ slots "ps" num_ps ->
                            is_Some (kv !! slot_key slot)).
  { intros slot Hin. apply Hall. right. apply elem_of_app. by left. }
  destruct (_spec_from_kv_supplied kv num_workers num_ps log Hall)
    as (chief & Hchief & Hrun).
  exists chief, (kv_values kv "worker" num_workers), (kv_values kv "ps" num_ps).
  split; [done|].
  split; [by apply kv_values_lookups|]. split; [by apply kv_values_lookups|].
  split; [by apply length_kv_values|]. split; [by apply length_kv_values|].
  by rewrite extend_comm.
Qed.

(** C6.  A source that has a value for every slot makes both builders
    return, with one chief endpoint, with as many worker and
    parameter-server endpoints as their positive counts say, and with each
    task's endpoint at the position of its index: for [_spec_from_iter]
    the addresses in the order drawn, for [_spec_from_kv] the value
    published under the task's key. *)
Theorem spec_builders_endpoint_counts num_workers num_ps :
  (forall reserved,
     (length (iter_order num_workers num_ps) <= length reserved)%nat ->
     exists spec rest chief,
       _spec_from_iter num_workers num_ps reserved = (Returned spec, rest) /\
       spec !! "chief" = Some [chief] /\
       ((0 < num_workers)%Z ->
        exists addrs, spec !! "worker" = Some addrs /\
                      Z.of_nat (length addrs) = num_workers) /\
       ((0 < num_ps)%Z ->
        exists addrs, spec !! "ps" = Some addrs /\
                      Z.of_nat (length addrs) = num_ps) /\
       endpoint_at spec <$> iter_order num_workers num_ps
       = Some <$> take (length (iter_order num_workers num_ps)) reserved) /\
  (forall kv log,
     (forall slot, slot ∈ kv_order num_workers num_ps ->
                   is_Some (kv !! slot_key slot)) ->
     exists spec log' chief,
       _spec_from_kv kv num_workers num_ps log = (Got spec, log') /\
       spec !! "chief" = Some [chief] /\
       ((0 < num_workers)%Z ->
        exists addrs, spec !! "worker" = Some addrs /\
                      Z.of_nat (length addrs) = num_workers) /\
       ((0 < num_ps)%Z ->
        exists addrs, spec !! "ps" = Some addrs /\
                      Z.of_nat (length addrs) = num_ps) /\
       (forall slot, slot ∈ kv_order num_workers num_ps ->
                     endpoint_at spec slot = kv !! slot_key slot)).
Proof.
  split.
  - intros reserved Hlen.
    destruct (_spec_from_iter_table num_workers num_ps reserved Hlen)
      as (chief & workers & pss & Htake & Hw & Hp & Hrun).
    destruct (table_facts chief workers pss num_workers num_ps Hw Hp)
      as (Hchief & Hworker & Hps & Hc & Hws & Hpss & _).
    eexists _, _, chief. split; [exact Hrun|]. split; [done|].
    split; [|split].
    + intros Hpos. exists workers. split; [by apply Hworker|lia].
    + intros Hpos. exists pss. split; [by apply Hps|lia].
    + rewrite Htake. unfold iter_order. rewrite !fmap_cons, !fmap_app.
      by rewrite Hc, Hws, Hpss.
  - intros kv log Hall.
    destruct (_spec_from_kv_table kv num_workers num_ps log Hall)
      as (chief & workers & pss & Hkc & Hkw & Hkp & Hw & Hp & Hrun).
    destruct (table_facts chief workers pss num_workers num_ps Hw Hp)
      as (Hchief & Hworker & Hps & Hc & Hws & Hpss & _).
    eexists _, _, chief. split; [exact Hrun|]. split; [done|].
    split; [|split].
    + intros Hpos. exists workers. split; [by apply Hworker|lia].
    + intros Hpos. exists pss. split; [by apply Hps|lia].
    + intros slot Hslot. apply elem_of_cons in Hslot as [->|Hslot].
      * rewrite Hc. symmetry. exact Hkc.
      * apply elem_of_app in Hslot as [Hslot|Hslot].
        -- apply (fmap_eq_elem (endpoint_at _) (fun slot => kv !! slot_key slot)
                    (slots "ps" num_ps)); [|done].
           by rewrite Hpss, Hkp.
        -- apply (fmap_eq_elem (endpoint_at _) (fun slot => kv !! slot_key slot)
                    (slots "worker" num_workers)); [|done].
           by rewrite Hws, Hkw.
Qed.

(** C6 for one chief, two workers and one parameter server. *)
Lemma spec_builders_endpoint_counts_witness :
  (exists spec,
     (_spec_from_iter 2 1 ["h:1"; "h:2"; "h:3"; "h:4"]).1 = Returned spec /\
     length <$> spec !! "worker" = Some 2%nat) /\
  (exists spec,
     (_spec_from_kv
        (list_to_map [("chief:0", "h:1"); ("ps:0", "h:2");
                      ("worker:0", "h:3"); ("worker:1", "h:4")]) 2 1 []).1
     = Got spec /\
     length <$> spec !! "worker" = Some 2%nat).
Proof.
  destruct (spec_builders_endpoint_counts 2 1) as [Hiter Hkv]. split.
  - destruct (Hiter ["h:1"; "h:2"; "h:3"; "h:4"])
      as (spec & rest & chief & Hrun & _ & Hworker & _).
    { vm_compute. lia. }
    destruct Hworker as (addrs & Haddrs & Hlen); [lia|].
    exists spec. rewrite Hrun, Haddrs. split; [done|]. simpl. f_equal. lia.
  - destruct (Hkv (list_to_map [("chief:0", "h:1"); ("ps:0", "h:2");
                                ("worker:0", "h:3"); ("worker:1", "h:4")]) [])
      as (spec & log' & chief & Hrun & _ & Hworker & _).
    { intros slot Hslot. vm_compute in Hslot.
      repeat (apply elem_of_cons in Hslot as [->|Hslot]; [by eexists|]).
      by apply elem_of_nil in Hslot. }
    destruct Hworker as (addrs & Haddrs & Hlen); [lia|].
    exists spec. rewrite Hrun, Haddrs. split; [done|]. simpl. f_equal. lia.
Defined.

(** C10.  The table a builder returns has the key ["chief"] and a key for
    each other role whose count is positive, and no other key: a role
    with count [0] has no key, and no key maps to an empty list. *)
Theorem spec_builders_keys num_workers num_ps :
  (forall reserved,
     (length (iter_order num_workers num_ps) <= length reserved)%nat ->
     exists spec rest,
       _spec_from_iter num_workers num_ps reserved = (Returned spec, rest) /\
       dom spec = expected_keys num_workers num_ps /\
       (forall role addrs, spec !! role = Some addrs -> addrs <> [])) /\
  (forall kv log,
     (forall slot, slot ∈ kv_order num_workers num_ps ->
                   is_Some (kv !! slot_key slot)) ->
     exists spec log',
       _spec_from_kv kv num_workers num_ps log = (Got spec, log') /\
       dom spec = expected_keys num_workers num_ps /\
       (forall role addrs, spec !! role = Some addrs -> addrs <> [])).
Proof.
  split.
  - intros reserved Hlen.
    destruct (_spec_from_iter_table num_workers num_ps reserved Hlen)
      as (chief & workers & pss & _ & Hw & Hp & Hrun).
    destruct (table_facts chief workers pss num_workers num_ps Hw Hp)
      as (_ & _ & _ & _ & _ & _ & Hdom & Hne).
    eexists _, _. split; [exact Hrun|]. done.
  - intros kv log Hall.
    destruct (_spec_from_kv_table kv num_workers num_ps log Hall)
      as (chief & workers & pss & _ & _ & _ & Hw & Hp & Hrun).
    destruct (table_facts chief workers pss num_workers num_ps Hw Hp)
      as (_ & _ & _ & _ & _ & _ & Hdom & Hne).
    eexists _, _. split; [exact Hrun|]. done.
Qed.

(** C10 with no worker and one parameter server: the keys are ["chief"]
    and ["ps"]. *)
Lemma spec_builders_keys_witness :
  (exists spec,
     (_spec_from_iter 0 1 ["h:1"; "h:2"]).1 = Returned spec /\
     spec !! "worker" = None) /\
  (exists spec,
     (_spec_from_kv (list_to_map [("chief:0", "h:1"); ("ps:0", "h:2")]) 0 1 []).1
     = Got spec /\
     spec !! "worker" = None).
Proof.
  destruct (spec_builders_keys 0 1) as [Hiter Hkv]. split.
  - destruct (Hiter ["h:1"; "h:2"]) as (spec & rest & Hrun & Hdom & _).
    { vm_compute. lia. }
    exists spec. rewrite Hrun. split; [done|].
    apply not_elem_of_dom. rewrite Hdom. vm_compute. set_solver.
  - destruct (Hkv (list_to_map [("chief:0", "h:1"); ("ps:0", "h:2")]) [])
      as (spec & log' & Hrun & Hdom & _).
    { intros slot Hslot. vm_compute in Hslot.
      repeat (apply elem_of_cons in Hslot as [->|Hslot]; [by eexists|]).
      by apply elem_of_nil in Hslot. }
    exists spec. rewrite Hrun. split; [done|].
    apply not_elem_of_dom. rewrite Hdom. vm_compute. set_solver.
Defined.

End ClusterSpecBuilder_facts.

(** ** RemoteClosure *)

Section RemoteClosure_facts.

Import RemoteClosure.

Local Open Scope Z_scope.

(** A property of small integers that a computation checks for each of
    them holds for all of them. *)
Lemma forall_range (n : Z) (P : Z -> bool) :
  forallb P (seqZ 0 n) = true -> forall z, 0 <= z < n -> P z = true.
Proof.
  intros Hall z Hz. rewrite forallb_forall in Hall. apply Hall.
  apply list_elem_of_In, elem_of_seqZ. lia.
Qed.

Lemma byte_to_Z_range (b : byte) : 0 <= byte_to_Z b < 256.
Proof.
  unfold byte_to_Z. pose proof (Byte.to_N_bounded b). lia.
Qed.

Lemma forall_byte (P : Z -> bool) :
  forallb P (seqZ 0 256) = true -> forall b : byte, P (byte_to_Z b) = true.
Proof. intros Hall b. apply (forall_range 256 P Hall), byte_to_Z_range. Qed.

Lemma forall_byte2 (P : Z -> Z -> bool) :
  forallb (fun x1 => forallb (P x1) (seqZ 0 256)) (seqZ 0 256) = true ->
  forall b1 b2 : byte, P (byte_to_Z b1) (byte_to_Z b2) = true.
Proof.
  intros Hall b1 b2.
  apply (forall_byte (P (byte_to_Z b1))).
  apply (forall_byte (fun x1 => forallb (P x1) (seqZ 0 256)) Hall).
Qed.

(** Storing the integer of a byte into an [unsigned char] gives the byte
    back. *)
Lemma byte_of_to_Z (b : byte) : byte_of_Z (byte_to_Z b) = b.
Proof.
  unfold byte_of_Z.
  replace (Z.land (byte_to_Z b) 255) with (byte_to_Z b).
  - unfold byte_to_Z. by rewrite N2Z.id, Byte.of_to_N.
  - symmetry. apply Z.eqb_eq.
    apply (forall_byte (fun x => Z.land x 255 =? x)). by vm_compute.
Qed.

Lemma byte_of_Z_eq (z : Z) (b : byte) :
  Z.land z 255 = byte_to_Z b -> byte_of_Z z = b.
Proof.
  intros Hz. rewrite <- (byte_of_to_Z b). unfold byte_of_Z. rewrite Hz.
  f_equal. f_equal. f_equal. symmetry. apply Z.eqb_eq.
  apply (forall_byte (fun x => Z.land x 255 =? x)). by vm_compute.
Qed.

(** The characters of the alphabet: none is the padding character, each
    decodes to its position, each is ASCII. *)
Lemma b2a_facts (v : Z) :
  0 <= v < 64 ->
  Ascii.eqb (b2a v) BASE64_PAD = false /\
  table_a2b_base64 (b2a v) = Some v /\
  is_ascii (b2a v) = true.
Proof.
  intros Hv.
  pose proof (forall_range 64
    (fun v => negb (Ascii.eqb (b2a v) BASE64_PAD)
              && bool_decide (table_a2b_base64 (b2a v) = Some v)
              && is_ascii (b2a v)) ltac:(by vm_compute) v Hv) as H.
  simpl in H. apply andb_prop in H as [H H3]. apply andb_prop in H as [H1 H2].
  apply negb_true_iff in H1. apply bool_decide_eq_true in H2. done.
Qed.

(** The sextets the encoder takes from its bytes. *)
Lemma sextet_1 (b1 : byte) : 0 <= Z.shiftr (byte_to_Z b1) 2 < 64.
Proof.
  pose proof (forall_byte
    (fun x => (0 <=? Z.shiftr x 2) && (Z.shiftr x 2 <? 64))
    ltac:(by vm_compute) b1) as H.
  simpl in H. apply andb_prop in H as [H1 H2]. lia.
Qed.

Lemma sextet_2 (b1 b2 : byte) :
  0 <= Z.lor (Z.shiftl (Z.land (byte_to_Z b1) 3) 4) (Z.shiftr (byte_to_Z b2) 4) < 64.
Proof.
  pose proof (forall_byte2
    (fun x1 x2 =>
       let v := Z.lor (Z.shiftl (Z.land x1 3) 4) (Z.shiftr x2 4) in
       (0 <=? v) && (v <? 64))
    ltac:(by vm_compute) b1 b2) as H.
  simpl in H. apply andb_prop in H as [H1 H2]. lia.
Qed.

Lemma sextet_3 (b2 b3 : byte) :
  0 <= Z.lor (Z.shiftl (Z.land (byte_to_Z b2) 15) 2) (Z.shiftr (byte_to_Z b3) 6) < 64.
Proof.
  pose proof (forall_byte2
    (fun x2 x3 =>
       let v := Z.lor (Z.shiftl (Z.land x2 15) 2) (Z.shiftr x3 6) in
       (0 <=? v) && (v <? 64))
    ltac:(by vm_compute) b2 b3) as H.
  simpl in H. apply andb_prop in H as [H1 H2]. lia.
Qed.

Lemma sextet_4 (b3 : byte) : 0 <= Z.land (byte_to_Z b3) 63 < 64.
Proof.
  pose proof (forall_byte
    (fun x => (0 <=? Z.land x 63) && (Z.land x 63 <? 64))
    ltac:(by vm_compute) b3) as H.
  simpl in H. apply andb_prop in H as [H1 H2]. lia.
Qed.

Lemma sextet_2_last (b1 : byte) :
  0 <= Z.shiftl (Z.land (byte_to_Z b1) 3) 4 < 64.
Proof.
  pose proof (forall_byte
    (fun x => let v := Z.shiftl (Z.land x 3) 4 in (0 <=? v) && (v <? 64))
    ltac:(by vm_compute) b1) as H.
  simpl in H. apply andb_prop in H as [H1 H2]. lia.
Qed.

Lemma sextet_3_last (b2 : byte) :
  0 <= Z.shiftl (Z.land (byte_to_Z b2) 15) 2 < 64.
Proof.
  pose proof (forall_byte
    (fun x => let v := Z.shiftl (Z.land x 15) 2 in (0 <=? v) && (v <? 64))
    ltac:(by vm_compute) b2) as H.
  simpl in H. apply andb_prop in H as [H1 H2]. lia.
Qed.

(** The bytes the decoder puts together from the sextets. *)
Lemma first_byte (b1 b2 : byte) :
  byte_of_Z
    (Z.lor (Z.shiftl (Z.shiftr (byte_to_Z b1) 2) 2)
       (Z.shiftr (Z.lor (Z.shiftl (Z.land (byte_to_Z b1) 3) 4)
                    (Z.shiftr (byte_to_Z b2) 4)) 4)) = b1.
Proof.
  apply byte_of_Z_eq, Z.eqb_eq.
  apply (forall_byte2
    (fun x1 x2 =>
       Z.land (Z.lor (Z.shiftl (Z.shiftr x1 2) 2)
                 (Z.shiftr (Z.lor (Z.shiftl (Z.land x1 3) 4) (Z.shiftr x2 4)) 4))
         255 =? x1)).
  by vm_compute.
Qed.

Lemma first_byte_last (b1 : byte) :
  byte_of_Z
    (Z.lor (Z.shiftl (Z.shiftr (byte_to_Z b1) 2) 2)
       (Z.shiftr (Z.shiftl (Z.land (byte_to_Z b1) 3) 4) 4)) = b1.
Proof.
  apply byte_of_Z_eq, Z.eqb_eq.
  apply (forall_byte
    (fun x1 =>
       Z.land (Z.lor (Z.shiftl (Z.shiftr x1 2) 2)
                 (Z.shiftr (Z.shiftl (Z.land x1 3) 4) 4)) 255 =? x1)).
  by vm_compute.
Qed.

Lemma second_byte_high (b1 b2 : byte) :
  Z.land (Z.lor (Z.shiftl (Z.land (byte_to_Z b1) 3) 4)
            (Z.shiftr (byte_to_Z b2) 4)) 15
  = Z.shiftr (byte_to_Z b2) 4.
Proof.
  apply Z.eqb_eq.
  apply (forall_byte2
    (fun x1 x2 =>
       Z.land (Z.lor (Z.shiftl (Z.land x1 3) 4) (Z.shiftr x2 4)) 15
       =? Z.shiftr x2 4)).
  by vm_compute.
Qed.

Lemma second_byte_low (b2 b3 : byte) :
  Z.shiftr (Z.lor (Z.shiftl (Z.land (byte_to_Z b2) 15) 2)
              (Z.shiftr (byte_to_Z b3) 6)) 2
  = Z.land (byte_to_Z b2) 15.
Proof.
  apply Z.eqb_eq.
  apply (forall_byte2
    (fun x2 x3 =>
       Z.shiftr (Z.lor (Z.shiftl (Z.land x2 15) 2) (Z.shiftr x3 6)) 2
       =? Z.land x2 15)).
  by vm_compute.
Qed.

Lemma second_byte_low_last (b2 : byte) :
  Z.shiftr (Z.shiftl (Z.land (byte_to_Z b2) 15) 2) 2 = Z.land (byte_to_Z b2) 15.
Proof.
  apply Z.eqb_eq.
  apply (forall_byte
    (fun x2 => Z.shiftr (Z.shiftl (Z.land x2 15) 2) 2 =? Z.land x2 15)).
  by vm_compute.
Qed.

Lemma second_byte (b2 : byte) :
  byte_of_Z (Z.lor (Z.shiftl (Z.shiftr (byte_to_Z b2) 4) 4)
               (Z.land (byte_to_Z b2) 15)) = b2.
Proof.
  apply byte_of_Z_eq, Z.eqb_eq.
  apply (forall_byte
    (fun x2 =>
       Z.land (Z.lor (Z.shiftl (Z.shiftr x2 4) 4) (Z.land x2 15)) 255 =? x2)).
  by vm_compute.
Qed.

Lemma third_byte (b2 b3 : byte) :
  byte_of_Z
    (Z.lor (Z.shiftl (Z.land (Z.lor (Z.shiftl (Z.land (byte_to_Z b2) 15) 2)
                                (Z.shiftr (byte_to_Z b3) 6)) 3) 6)
       (Z.land (byte_to_Z b3) 63)) = b3.
Proof.
  apply byte_of_Z_eq, Z.eqb_eq.
  apply (forall_byte2
    (fun x2 x3 =>
       Z.land (Z.lor (Z.shiftl (Z.land (Z.lor (Z.shiftl (Z.land x2 15) 2)
                                          (Z.shiftr x3 6)) 3) 6)
                 (Z.land x3 63)) 255 =? x3)).
  by vm_compute.
Qed.

(** One turn of the decoder's loop on a character of the alphabet, at
    each position of the quad. *)
Lemma a2b_loop_quad0 v s lc pads bin :
  0 <= v < 64 ->
  a2b_loop (String (b2a v) s) 0 lc pads bin = a2b_loop s 1 v 0 bin.
Proof.
  intros Hv. destruct (b2a_facts v Hv) as (Hpad & Htab & _).
  simpl. by rewrite Hpad, Htab.
Qed.

Lemma a2b_loop_quad1 v s lc pads bin :
  0 <= v < 64 ->
  a2b_loop (String (b2a v) s) 1 lc pads bin
  = a2b_loop s 2 (Z.land v 15) 0
      (bin ++ [byte_of_Z (Z.lor (Z.shiftl lc 2) (Z.shiftr v 4))]).
Proof.
  intros Hv. destruct (b2a_facts v Hv) as (Hpad & Htab & _).
  simpl. by rewrite Hpad, Htab.
Qed.

Lemma a2b_loop_quad2 v s lc pads bin :
  0 <= v < 64 ->
  a2b_loop (String (b2a v) s) 2 lc pads bin
  = a2b_loop s 3 (Z.land v 3) 0
      (bin ++ [byte_of_Z (Z.lor (Z.shiftl lc 4) (Z.shiftr v 2))]).
Proof.
  intros Hv. destruct (b2a_facts v Hv) as (Hpad & Htab & _).
  simpl. by rewrite Hpad, Htab.
Qed.

Lemma a2b_loop_quad3 v s lc pads bin :
  0 <= v < 64 ->
  a2b_loop (String (b2a v) s) 3 lc pads bin
  = a2b_loop s 0 0 0 (bin ++ [byte_of_Z (Z.lor (Z.shiftl lc 6) v)]).
Proof.
  intros Hv. destruct (b2a_facts v Hv) as (Hpad & Htab & _).
  simpl. by rewrite Hpad, Htab.
Qed.

(** Induction on a list of bytes, three at a time. *)
Lemma list_ind_by3 {A} (P : list A -> Prop) :
  P [] -> (forall a, P [a]) -> (forall a b, P [a; b]) ->
  (forall a b c l, P l -> P (a :: b :: c :: l)) ->
  forall l, P l.
Proof.
  intros H0 H1 H2 H3 l.
  assert (P l /\ (forall a, P (a :: l)) /\ (forall a b, P (a :: b :: l)))
    as [Hl _]; [|done].
  induction l as [|c l (IH0 & IH1 & IH2)]; [done|].
  split; [apply IH1|]. split; [intros a; apply IH2|].
  intros a b. by apply H3.
Qed.

(** The decoder's loop reads back what the encoder wrote. *)
Lemma a2b_loop_b64encode data :
  forall bin, a2b_loop (b64encode data) 0 0 0 bin = Returned (bin ++ data).
Proof.
  induction data as [|b1|b1 b2|b1 b2 b3 data IH] using list_ind_by3; intros bin.
  - simpl. by rewrite app_nil_r.
  - change (b64encode [b1]) with
      (String (b2a (Z.shiftr (byte_to_Z b1) 2))
         (String (b2a (Z.shiftl (Z.land (byte_to_Z b1) 3) 4)) "==")).
    rewrite a2b_loop_quad0 by apply sextet_1.
    rewrite a2b_loop_quad1 by apply sextet_2_last.
    by rewrite first_byte_last.
  - change (b64encode [b1; b2]) with
      (String (b2a (Z.shiftr (byte_to_Z b1) 2))
         (String (b2a (Z.lor (Z.shiftl (Z.land (byte_to_Z b1) 3) 4)
                         (Z.shiftr (byte_to_Z b2) 4)))
            (String (b2a (Z.shiftl (Z.land (byte_to_Z b2) 15) 2)) "="))).
    rewrite a2b_loop_quad0 by apply sextet_1.
    rewrite a2b_loop_quad1 by apply sextet_2.
    rewrite a2b_loop_quad2 by apply sextet_3_last.
    rewrite first_byte, second_byte_high, second_byte_low_last, second_byte.
    simpl. by rewrite <- app_assoc.
  - change (b64encode (b1 :: b2 :: b3 :: data)) with
      (String (b2a (Z.shiftr (byte_to_Z b1) 2))
         (String (b2a (Z.lor (Z.shiftl (Z.land (byte_to_Z b1) 3) 4)
                         (Z.shiftr (byte_to_Z b2) 4)))
            (String (b2a (Z.lor (Z.shiftl (Z.land (byte_to_Z b2) 15) 2)
                            (Z.shiftr (byte_to_Z b3) 6)))
               (String (b2a (Z.land (byte_to_Z b3) 63)) (b64encode data))))).
    rewrite a2b_loop_quad0 by apply sextet_1.
    rewrite a2b_loop_quad1 by apply sextet_2.
    rewrite a2b_loop_quad2 by apply sextet_3.
    rewrite a2b_loop_quad3 by apply sextet_4.
    rewrite first_byte, second_byte_high, second_byte_low, second_byte,
      third_byte.
    rewrite IH. by rewrite <- !app_assoc.
Qed.

(** What the encoder writes: characters of the alphabet and padding. *)
Ltac alphabet_char :=
  first
    [ left; reflexivity
    | right; eexists; (split; [|reflexivity]);
      first [ apply sextet_1 | apply sextet_2 | apply sextet_3
            | apply sextet_4 | apply sextet_2_last | apply sextet_3_last ] ].

Lemma b64encode_alphabet data :
  Forall (fun c => c = BASE64_PAD \/ exists v, 0 <= v < 64 /\ c = b2a v)
         (list_ascii_of_string (b64encode data)).
Proof.
  induction data as [|b1|b1 b2|b1 b2 b3 data IH] using list_ind_by3.
  - constructor.
  - simpl. repeat (apply Forall_cons_2; [alphabet_char|]). constructor.
  - simpl. repeat (apply Forall_cons_2; [alphabet_char|]). constructor.
  - change (b64encode (b1 :: b2 :: b3 :: data)) with
      (String (b2a (Z.shiftr (byte_to_Z b1) 2))
         (String (b2a (Z.lor (Z.shiftl (Z.land (byte_to_Z b1) 3) 4)
                         (Z.shiftr (byte_to_Z b2) 4)))
            (String (b2a (Z.lor (Z.shiftl (Z.land (byte_to_Z b2) 15) 2)
                            (Z.shiftr (byte_to_Z b3) 6)))
               (String (b2a (Z.land (byte_to_Z b3) 63)) (b64encode data))))).
    simpl list_ascii_of_string.
    repeat (apply Forall_cons_2; [alphabet_char|]). exact IH.
Qed.

Lemma b64encode_plain_text_safe data : plain_text_safe (b64encode data).
Proof.
  unfold plain_text_safe. eapply Forall_impl; [apply b64encode_alphabet|].
  intros c [->|(v & Hv & ->)]; [by left|right].
  destruct (b2a_facts v Hv) as (_ & -> & _). by eexists.
Qed.

(** [b64decode] undoes [b64encode]. *)
Lemma b64decode_b64encode data : b64decode (b64encode data) = Returned data.
Proof.
  unfold b64decode.
  replace (forallb is_ascii (list_ascii_of_string (b64encode data))) with true.
  - apply (a2b_loop_b64encode data []).
  - symmetry. apply forallb_forall. intros c Hc.
    pose proof (b64encode_alphabet data) as Hall.
    rewrite Forall_forall in Hall.
    destruct (Hall c) as [->|(v & Hv & ->)]; [by apply list_elem_of_In|done|].
    by destruct (b2a_facts v Hv) as (_ & _ & ->).
Qed.

Section dill_facts.

Context {fn arg res : Type}.
Variable dumps : fn -> outcome (list byte).
Variable loads : list byte -> outcome fn.
Variable call : fn -> arg -> outcome res.

(** C8.  [decode_fn] undoes the text encoding of [encode_fn] exactly: on
    whatever [encode_fn] returns, it hands [dill.loads] the very bytes
    [dill.dumps] wrote.  So for a serializable [f], [encode_fn] returns a
    string of base64 characters, and [decode_fn] returns from it a
    callable that behaves like [f] on every input. *)
Theorem decode_fn_encode_fn (f : fn) :
  (forall s, encode_fn dumps f = Returned s ->
     plain_text_safe s /\
     exists pickled,
       dumps f = Returned pickled /\ b64decode s = Returned pickled /\
       decode_fn loads s = loads pickled) /\
  (serializable dumps loads call f ->
   exists s g,
     encode_fn dumps f = Returned s /\
     decode_fn loads s = Returned g /\
     same_behaviour call f g).
Proof.
  split.
  - unfold encode_fn, decode_fn. intros s Hs.
    destruct (dumps f) as [pickled|e]; [|discriminate].
    injection Hs as <-. split; [apply b64encode_plain_text_safe|].
    exists pickled. by rewrite b64decode_b64encode.
  - intros (pickled & g & Hdumps & Hloads & Hsame).
    exists (b64encode pickled), g. unfold encode_fn, decode_fn.
    by rewrite Hdumps, b64decode_b64encode.
Qed.

End dill_facts.

(** C8 with a pickler for callables that are one byte of state: the byte
    is written as it is, and calling returns it with the argument. *)
Lemma decode_fn_encode_fn_witness :
  let dumps := fun f : byte => Returned [f] in
  let loads := fun pickled : list byte =>
    match pickled with
    | [b] => Returned b
    | _ => Raised (OtherException "UnpicklingError")
    end in
  let call := fun (f : byte) (x : byte) => Returned (f, x) in
  encode_fn dumps "A"%byte = Returned "QQ==" /\
  plain_text_safe "QQ==" /\
  decode_fn loads "QQ==" = Returned "A"%byte /\
  serializable dumps loads call "A"%byte /\
  exists s g,
    encode_fn dumps "A"%byte = Returned s /\
    decode_fn loads s = Returned g /\
    same_behaviour call "A"%byte g.
Proof.
  intros dumps loads call.
  assert (Hser : serializable dumps loads call "A"%byte).
  { exists ["A"%byte], "A"%byte. split; [reflexivity|].
    split; [reflexivity|]. intros x. reflexivity. }
  assert (Henc : encode_fn dumps "A"%byte = Returned "QQ==") by reflexivity.
  destruct (decode_fn_encode_fn dumps loads call "A"%byte) as [Htext Hround].
  destruct (Htext "QQ==" Henc) as (Hsafe & pickled & Hdumps & _ & Hdec).
  split; [exact Henc|]. split; [exact Hsafe|]. split.
  - rewrite Hdec. injection Hdumps as <-. reflexivity.
  - split; [exact Hser|]. exact (Hround Hser).
Defined.

End RemoteClosure_facts.

(** ** PortReservation *)

Section PortReservation_facts.

Import PortReservation.

Implicit Types (stack : list (option N)) (answers : list bind_result).
Implicit Types (host addr : string) (port : N).

(** An address is yielded for a port that no socket of the stack held
    when the run began. *)
Lemma yielded_port_fresh host answers : forall stack,
  os_consistent host stack answers ->
  forall addr, addr ∈ (iter_available_sock_addrs host stack answers).1 ->
  exists port, addr = (host ++ ":" ++ pretty port)%string /\ Some port ∉ stack.
Proof.
  induction answers as [|answer answers IH]; intros stack Hos addr Hin.
  - by apply elem_of_nil in Hin.
  - simpl in Hos, Hin. destruct Hos as [Hallow Hos].
    destruct answer as [port|errno]; simpl in *.
    + destruct (iter_available_sock_addrs host (Some port :: stack) answers)
        as [addrs final] eqn:Hrun. simpl in Hin.
      apply elem_of_cons in Hin as [->|Hin]; [by exists port|].
      destruct (IH (Some port :: stack) Hos addr) as (q & -> & Hq).
      { by rewrite Hrun. }
      exists q. split; [done|]. by apply not_elem_of_cons in Hq as [_ Hq].
    + destruct (Z.eqb errno EADDRINUSE); simpl in *.
      * destruct (IH (None :: stack) Hos addr Hin) as (q & -> & Hq).
        exists q. split; [done|]. by apply not_elem_of_cons in Hq as [_ Hq].
      * by apply elem_of_nil in Hin.
Qed.

Lemma yields_NoDup host answers : forall stack,
  os_consistent host stack answers ->
  NoDup (iter_available_sock_addrs host stack answers).1.
Proof.
  induction answers as [|answer answers IH]; intros stack Hos.
  - constructor.
  - simpl in Hos. destruct Hos as [Hallow Hos]. simpl.
    destruct answer as [port|errno]; simpl in *.
    + pose proof (yielded_port_fresh host answers (Some port :: stack) Hos)
        as Hfresh.
      specialize (IH (Some port :: stack) Hos).
      destruct (iter_available_sock_addrs host (Some port :: stack) answers)
        as [addrs final]. simpl in *.
      apply NoDup_cons. split; [|done].
      intros Hin. destruct (Hfresh _ Hin) as (q & Heq & Hq).
      apply (inj (String.app host)), (inj (String.app ":")), (inj pretty) in Heq.
      subst q. apply Hq. left.
    + destruct (Z.eqb errno EADDRINUSE); simpl in *.
      * by apply IH.
      * constructor.
Qed.

(** C9.  Whatever the operating system answers -- as long as it does not
    bind a socket to a port held by an open socket -- the first [n]
    addresses the generator yields are pairwise distinct, for every [n].
    A [bind] that fails with [EADDRINUSE] yields nothing and raises
    nothing: the loop goes on with a new socket.  A [bind] that fails with
    any other [errno] ends the generator with that [socket.error]. *)
Theorem iter_available_sock_addrs_distinct host :
  (forall answers n,
     os_consistent host [] answers ->
     NoDup (take n (iter_available_sock_addrs host [] answers).1)) /\
  (forall stack answers,
     iter_available_sock_addrs host stack (BindFails EADDRINUSE :: answers)
     = iter_available_sock_addrs host (None :: stack) answers) /\
  (forall stack errno answers,
     errno <> EADDRINUSE ->
     iter_available_sock_addrs host stack (BindFails errno :: answers)
     = ([], Raised (SocketError errno))).
Proof.
  split; [|split].
  - intros answers n Hos.
    eapply sublist_NoDup; [by apply yields_NoDup|apply sublist_take].
  - intros stack answers. reflexivity.
  - intros stack errno answers Hne. simpl.
    destruct (Z.eqb_spec errno EADDRINUSE) as [->|_]; done.
Qed.

(** C9 on a run where the second [bind] finds the address in use. *)
Lemma iter_available_sock_addrs_distinct_witness :
  os_consistent "node1" []
    [Bound 50001; BindFails EADDRINUSE; Bound 50002] /\
  (iter_available_sock_addrs "node1" []
     [Bound 50001; BindFails EADDRINUSE; Bound 50002]).1
  = ["node1:50001"; "node1:50002"] /\
  NoDup (take 2 (iter_available_sock_addrs "node1" []
                   [Bound 50001; BindFails EADDRINUSE; Bound 50002]).1) /\
  iter_available_sock_addrs "node1" [] [BindFails 13; Bound 50001]
  = ([], Raised (SocketError 13)).
Proof.
  assert (Hos : os_consistent "node1" []
                  [Bound 50001; BindFails EADDRINUSE; Bound 50002]).
  { simpl. repeat split.
    - apply not_elem_of_nil.
    - intros Hin. apply elem_of_cons in Hin as [Heq|Hin]; [discriminate|].
      apply elem_of_cons in Hin as [Heq|Hin]; [discriminate|].
      by apply elem_of_nil in Hin. }
  destruct (iter_available_sock_addrs_distinct "node1") as (Hdistinct & _ & Hfail).
  split; [exact Hos|]. split; [reflexivity|].
  split; [exact (Hdistinct _ 2%nat Hos)|].
  apply Hfail. unfold EADDRINUSE. lia.
Defined.

End PortReservation_facts.

(** ** JobLifecycleCoordinator *)

Section Lifecycle_facts.

Import Lifecycle.

Local Open Scope Z_scope.

Implicit Types (mgr : manager) (rs pre rest : list round) (log : list call).
Implicit Types (cs : gmap string (string * string)) (st : FinalStatus).
Implicit Types (app_id : string) (secs : Z).

(** Merging keeps every identifier it had and adds the reported ones. *)
Lemma merge_containers_keeps reported cs i :
  i ∈ dom cs -> i ∈ dom (merge_containers reported cs).
Proof.
  revert cs. induction reported as [|c reported IH]; intros cs Hi; [done|].
  simpl. apply IH. rewrite dom_insert_L. set_solver.
Qed.

Lemma merge_containers_adds reported cs c :
  c ∈ reported -> id c ∈ dom (merge_containers reported cs).
Proof.
  revert cs. induction reported as [|c' reported IH]; intros cs Hc.
  - by apply elem_of_nil in Hc.
  - simpl. apply elem_of_cons in Hc as [->|Hc]; [|by apply IH].
    apply merge_containers_keeps. rewrite dom_insert_L. set_solver.
Qed.

(** The loop never drops a container, however it ends. *)
Lemma poll_loop_keeps app_id secs rs : forall st cs log i,
  i ∈ dom cs -> i ∈ dom (containers (poll_loop app_id secs rs st cs log).2).
Proof.
  induction rs as [|r rs IH]; intros st cs log i Hi.
  - by destruct st.
  - destruct st; simpl; try done.
    destruct (sleep_interrupt r); [done|].
    destruct (report r) as [st'|e]; [|done].
    destruct (get_containers r) as [reported|e]; [|done].
    apply IH. by apply merge_containers_keeps.
Qed.

(** One quiet turn of the loop. *)
Lemma poll_loop_quiet app_id secs r rs st reported cs log :
  quiet st reported r ->
  poll_loop app_id secs (r :: rs) UNDEFINED cs log
  = poll_loop app_id secs rs st (merge_containers reported cs)
      (log ++ polls app_id secs 1).
Proof.
  intros (Hsleep & Hreport & Hget). simpl.
  rewrite Hsleep, Hreport, Hget. by rewrite <- !app_assoc.
Qed.

Lemma polls_S app_id secs n :
  polls app_id secs (S n) = polls app_id secs 1 ++ polls app_id secs n.
Proof. unfold polls. simpl. done. Qed.

(** The loop goes through every leading round that reports [UNDEFINED]. *)
Lemma poll_loop_undecided app_id secs pre : forall rest cs log,
  Forall undecided pre ->
  poll_loop app_id secs (pre ++ rest) UNDEFINED cs log
  = poll_loop app_id secs rest UNDEFINED (observed pre cs)
      (log ++ polls app_id secs (length pre)).
Proof.
  induction pre as [|r pre IH]; intros rest cs log Hall.
  - simpl. by rewrite app_nil_r.
  - apply Forall_cons_1 in Hall as [[reported Hr] Hall].
    rewrite <- app_comm_cons, (poll_loop_quiet _ _ _ _ _ _ _ _ Hr).
    rewrite IH by done. rewrite length_cons, polls_S, <- app_assoc. simpl.
    destruct Hr as (_ & _ & ->). done.
Qed.

Lemma polls_snoc app_id secs n :
  polls app_id secs n ++ polls app_id secs 1 = polls app_id secs (S n).
Proof.
  induction n as [|n IH]; [done|].
  transitivity (polls app_id secs 1 ++ (polls app_id secs n ++ polls app_id secs 1)).
  - rewrite (polls_S _ _ n). by rewrite <- app_assoc.
  - rewrite IH. by rewrite (polls_S _ _ (S n)).
Qed.

(** The loop stops at the first round that reports a terminal status. *)
Lemma poll_loop_terminal app_id secs pre r rest st reported cs log :
  Forall undecided pre -> quiet st reported r -> st <> UNDEFINED ->
  poll_loop app_id secs (pre ++ r :: rest) UNDEFINED cs log
  = (Exited,
     mkLoop st (merge_containers reported (observed pre cs)) rest
       (log ++ polls app_id secs (S (length pre)))).
Proof.
  intros Hpre Hr Hst.
  rewrite poll_loop_undecided by done.
  rewrite (poll_loop_quiet _ _ _ _ _ _ _ _ Hr).
  rewrite <- app_assoc, polls_snoc.
  destruct st; try done; by destruct rest.
Qed.

(** The loop is still polling when every round reported [UNDEFINED]. *)
Lemma poll_loop_still_polling app_id secs pre cs log :
  Forall undecided pre ->
  poll_loop app_id secs pre UNDEFINED cs log
  = (Polling,
     mkLoop UNDEFINED (observed pre cs) [] (log ++ polls app_id secs (length pre))).
Proof.
  intros Hpre.
  rewrite <- (app_nil_r pre) at 1. by rewrite poll_loop_undecided.
Qed.

Lemma merge_containers_dom reported cs :
  dom (merge_containers reported cs) = dom cs ∪ list_to_set (id <$> reported).
Proof.
  revert cs. induction reported as [|c reported IH]; intros cs.
  - simpl. by rewrite (right_id_L ∅ (∪)).
  - change (merge_containers (c :: reported) cs) with
      (merge_containers reported (<[id c := (state c, yarn_container_logs c)]> cs)).
    rewrite IH, dom_insert_L, fmap_cons, list_to_set_cons. set_solver.
Qed.

(** The label by the way the body ends.  However the body of
    [with _shutdown(app)] ends, [app.shutdown] is called once, after it,
    with [KILLED] for a [KeyboardInterrupt] or [SystemExit], [FAILED] for
    any other exception and, when the [with] statement stands outside any
    [except] block, [SUCCEEDED] for a normal end.  When that call returns
    or raises a [ConnectionError] the body's outcome stands; any other
    exception it raises is the outcome.
    In [_await_termination], an interrupt during a sleep, before any
    terminal status was reported, makes the last call to the manager
    [shutdown("KILLED")]. *)
Lemma shutdown_status_by_exit_cause :
  (forall (A : Type) mgr handled (body : L A) log r log1,
     body log = (Some r, log1) ->
     exists status r',
       with_shutdown mgr handled body log
       = (Some r', log1 ++ [Shutdown status]) /\
       ((r = Raised KeyboardInterrupt \/ r = Raised SystemExit) ->
        status = "KILLED") /\
       (forall e, r = Raised e -> e <> KeyboardInterrupt -> e <> SystemExit ->
                  status = "FAILED") /\
       (forall v, r = Returned v -> handled = None -> status = "SUCCEEDED") /\
       ((shutdown_result mgr status = Returned tt \/
         shutdown_result mgr status = Raised ConnectionError) -> r' = r) /\
       (forall e, shutdown_result mgr status = Raised e ->
                  e <> ConnectionError -> r' = Raised e)) /\
  (forall mgr handled app_id secs log pre r rest,
     connect_result mgr = Returned tt ->
     rounds mgr = pre ++ r :: rest ->
     Forall undecided pre ->
     sleep_interrupt r = Some KeyboardInterrupt ->
     (_await_termination mgr handled app_id secs log).2
     = log ++ [Connect app_id] ++ polls app_id secs (length pre)
           ++ [Sleep secs; Shutdown "KILLED"]).
Proof.
  split.
  - intros A mgr handled body log r log1 Hbody.
    exists (shutdown_status
              match r with Raised e => Some e | Returned _ => handled end).
    exists (match shutdown_result mgr
                    (shutdown_status
                       match r with Raised e => Some e | Returned _ => handled end)
            with
            | Returned _ => r
            | Raised ConnectionError => r
            | Raised e => Raised e
            end).
    split; [|split; [|split; [|split; [|split]]]].
    + unfold with_shutdown. rewrite Hbody.
      destruct (shutdown_result mgr _) as [u|e']; [done|]. by destruct e'.
    + intros [->| ->]; done.
    + intros e -> H1 H2. by destruct e.
    + intros v -> ->. done.
    + intros [-> | ->]; done.
    + intros e -> Hne. by destruct e.
  - intros mgr handled app_id secs log pre r rest Hconnect Hrounds Hpre Hint.
    unfold _await_termination, with_shutdown, monitor.
    rewrite Hconnect, Hrounds, poll_loop_undecided by done.
    simpl. rewrite Hint. simpl.
    destruct (shutdown_result mgr "KILLED") as [[]|e']; [|destruct e'];
      simpl; by rewrite <- !app_assoc.
Qed.

(** What the label is when the [with] statement runs inside an [except]
    block and its body returns: [sys.exc_info()] then reports the
    exception of that block. *)
Lemma with_shutdown_inside_except {A} mgr (body : L A) log v log1 :
  body log = (Some (Returned v), log1) ->
  shutdown_result mgr "FAILED" = Returned tt ->
  with_shutdown mgr (Some (OtherException "Exception")) body log
  = (Some (Returned v), log1 ++ [Shutdown "FAILED"]).
Proof.
  intros Hbody Hsd. unfold with_shutdown. rewrite Hbody. simpl. by rewrite Hsd.
Qed.

(** [shutdown_status_by_exit_cause] for a body that is interrupted, with
    a manager that is already down when asked to terminate. *)
Lemma shutdown_status_by_exit_cause_witness :
  let mgr := mkManager (Returned "application_1") (Returned tt)
               [mkRound None (Returned UNDEFINED) (Returned []);
                mkRound (Some KeyboardInterrupt) (Returned UNDEFINED) (Returned [])]
               (fun _ => Raised ConnectionError) in
  with_shutdown mgr None
    (fun log => (Some (Raised (A:=unit) KeyboardInterrupt), log)) []
  = (Some (Raised KeyboardInterrupt), [Shutdown "KILLED"]) /\
  (_await_termination mgr None "application_1" 10 []).2
  = [Connect "application_1"; Sleep 10; ApplicationReport "application_1";
     GetContainers; Sleep 10; Shutdown "KILLED"].
Proof.
  intros mgr.
  destruct shutdown_status_by_exit_cause as [Hgen Hint]. split.
  - destruct (Hgen unit mgr None
                (fun log => (Some (Raised KeyboardInterrupt), log))
                [] (Raised KeyboardInterrupt) [] eq_refl)
      as (status & r' & Hrun & Hkilled & _ & _ & Hkeep & _).
    rewrite Hrun, (Hkilled (or_introl eq_refl)).
    rewrite Hkeep; [done|]. right. done.
  - apply (Hint mgr None "application_1" 10 []
             [mkRound None (Returned UNDEFINED) (Returned [])]
             (mkRound (Some KeyboardInterrupt) (Returned UNDEFINED) (Returned []))
             []); try done.
    constructor; [|constructor]. by exists [].
Defined.

(** C3 (the code departs from it).  A normal end of the monitoring scope
    is claimed to give the label [SUCCEEDED].  [_shutdown] takes the cause
    from [sys.exc_info()], which inside the generator also reports an
    exception that the caller is handling: when [_await_termination] is
    called from an [except] block -- a retry after a failed attempt -- and
    the manager reports [SUCCEEDED] at the first poll, the call returns
    [SUCCEEDED] and yet asks the manager to terminate with [FAILED], or
    with [KILLED] when the block handles a [KeyboardInterrupt].  Called
    outside any [except] block, it asks with [SUCCEEDED], as claimed. *)
Theorem await_termination_inside_except_mislabels :
  let mgr := mkManager (Returned "application_1") (Returned tt)
               [mkRound None (Returned SUCCEEDED) (Returned [])]
               (fun _ => Returned tt) in
  let polled := [Connect "application_1"; Sleep 10;
                 ApplicationReport "application_1"; GetContainers] in
  _await_termination mgr (Some (OtherException "Exception")) "application_1" 10 []
  = (Some (Returned (SUCCEEDED, ∅)), polled ++ [Shutdown "FAILED"]) /\
  _await_termination mgr (Some KeyboardInterrupt) "application_1" 10 []
  = (Some (Returned (SUCCEEDED, ∅)), polled ++ [Shutdown "KILLED"]) /\
  _await_termination mgr None "application_1" 10 []
  = (Some (Returned (SUCCEEDED, ∅)), polled ++ [Shutdown "SUCCEEDED"]).
Proof. repeat split; reflexivity. Qed.

(** A [ConnectionError] from the manager ends the loop with the status
    and the containers known so far, and [monitor] returns them. *)
Lemma monitor_tolerates_ConnectionError mgr app_id secs log pre r rest :
  rounds mgr = pre ++ r :: rest ->
  Forall undecided pre ->
  sleep_interrupt r = None ->
  report r = Raised ConnectionError ->
  monitor mgr app_id secs log
  = (Some (Returned (UNDEFINED, observed pre ∅)),
     log ++ polls app_id secs (length pre)
         ++ [Sleep secs; ApplicationReport app_id]).
Proof.
  intros Hrounds Hpre Hsleep Hreport. unfold monitor.
  rewrite Hrounds, poll_loop_undecided by done. simpl.
  rewrite Hsleep, Hreport. simpl. by rewrite <- !app_assoc.
Qed.

Lemma last_record_app i l1 l2 :
  last_record i (l1 ++ l2)
  = match last_record i l2 with
    | Some rec => Some rec
    | None => last_record i l1
    end.
Proof.
  induction l1 as [|c l1 IH]; simpl.
  - by destruct (last_record i l2).
  - rewrite IH. by destruct (last_record i l2).
Qed.

Lemma last_record_None i reported :
  (forall c, c ∈ reported -> id c <> i) -> last_record i reported = None.
Proof.
  induction reported as [|c reported IH]; intros Hno; [done|].
  simpl. rewrite IH.
  - rewrite decide_False; [done|]. apply Hno. left.
  - intros c' Hc'. apply Hno. by right.
Qed.

(** Merging, identifier by identifier: the last record reported under the
    identifier, and what was there before when none is reported. *)
Lemma merge_containers_lookup reported : forall cs i,
  merge_containers reported cs !! i
  = match last_record i reported with
    | Some rec => Some rec
    | None => cs !! i
    end.
Proof.
  induction reported as [|c reported IH]; intros cs i; [done|].
  change (merge_containers (c :: reported) cs) with
    (merge_containers reported (<[id c := (state c, yarn_container_logs c)]> cs)).
  rewrite IH. simpl. destruct (last_record i reported); [done|].
  destruct (decide (id c = i)) as [<-|Hne].
  - apply lookup_insert_eq.
  - by apply lookup_insert_ne.
Qed.

Lemma observed_lookup rs : forall cs i,
  observed rs cs !! i
  = match last_record i (reported_in rs) with
    | Some rec => Some rec
    | None => cs !! i
    end.
Proof.
  induction rs as [|r rs IH]; intros cs i; [done|].
  change (observed (r :: rs) cs) with
    (observed rs match get_containers r with
                 | Returned reported => merge_containers reported cs
                 | Raised _ => cs
                 end).
  change (reported_in (r :: rs)) with
    (match get_containers r with
     | Returned reported => reported
     | Raised _ => []
     end ++ reported_in rs).
  rewrite IH, last_record_app.
  destruct (last_record i (reported_in rs)); [done|].
  destruct (get_containers r) as [reported|e]; [|done].
  apply merge_containers_lookup.
Qed.

(** A record stays as it is through the loop, however the loop ends, as
    long as no round reports its container again. *)
Lemma poll_loop_keeps_record app_id secs rs : forall st cs log i,
  (forall r reported c,
     r ∈ rs -> get_containers r = Returned reported -> c ∈ reported ->
     id c <> i) ->
  containers (poll_loop app_id secs rs st cs log).2 !! i = cs !! i.
Proof.
  induction rs as [|r rs IH]; intros st cs log i Hno.
  - by destruct st.
  - destruct st; simpl; try done.
    destruct (sleep_interrupt r); [done|].
    destruct (report r) as [st'|e]; [|done].
    destruct (get_containers r) as [reported|e] eqn:Hget; [|done].
    rewrite IH.
    + rewrite merge_containers_lookup, last_record_None; [done|].
      intros c Hc. apply (Hno r reported c); [left|done|done].
    + intros r' reported' c Hr'. apply Hno. by right.
Qed.

(** C7.  When the manager reports [UNDEFINED], [UNDEFINED], [SUCCEEDED],
    [_await_termination] makes exactly three polls, each a sleep of the
    poll interval followed by the two queries, and returns [SUCCEEDED]
    with, under each identifier, the last record that the three polls
    report for it, and nothing under any other identifier; it then shuts
    down, with the label [SUCCEEDED] when called outside any [except]
    block.  For every sequence of reports, the loop takes a further turn
    exactly while the last status it saw is [UNDEFINED]: it leaves at the
    first other status, and is still polling when all were [UNDEFINED].
    Through the loop, however it ends, no identifier is dropped, and the
    record of a container that no round reports again stays as it is.
    Merging stores each reported container under its identifier: after
    it, an identifier holds the last record reported under it, and the
    record it held before when none is reported; the same holds for the
    containers merged over several rounds. *)
Theorem await_termination_polls_while_undefined app_id secs :
  (forall mgr handled log l1 l2 l3 rest,
     connect_result mgr = Returned tt ->
     shutdown_result mgr (shutdown_status handled) = Returned tt ->
     rounds mgr = mkRound None (Returned UNDEFINED) (Returned l1)
                  :: mkRound None (Returned UNDEFINED) (Returned l2)
                  :: mkRound None (Returned SUCCEEDED) (Returned l3) :: rest ->
     exists cs,
       _await_termination mgr handled app_id secs log
       = (Some (Returned (SUCCEEDED, cs)),
          log ++ [Connect app_id] ++ polls app_id secs 3
              ++ [Shutdown (shutdown_status handled)]) /\
       cs = merge_containers l3 (merge_containers l2 (merge_containers l1 ∅)) /\
       forall i, cs !! i = last_record i (l1 ++ l2 ++ l3)) /\
  (forall pre r rest st reported cs log,
     Forall undecided pre -> quiet st reported r -> st <> UNDEFINED ->
     poll_loop app_id secs (pre ++ r :: rest) UNDEFINED cs log
     = (Exited,
        mkLoop st (merge_containers reported (observed pre cs)) rest
          (log ++ polls app_id secs (S (length pre))))) /\
  (forall pre cs log,
     Forall undecided pre ->
     poll_loop app_id secs pre UNDEFINED cs log
     = (Polling,
        mkLoop UNDEFINED (observed pre cs) []
          (log ++ polls app_id secs (length pre)))) /\
  (forall rs st cs log i,
     i ∈ dom cs -> i ∈ dom (containers (poll_loop app_id secs rs st cs log).2)) /\
  (forall rs st cs log i,
     (forall r reported c,
        r ∈ rs -> get_containers r = Returned reported -> c ∈ reported ->
        id c <> i) ->
     containers (poll_loop app_id secs rs st cs log).2 !! i = cs !! i) /\
  (forall reported cs,
     dom (merge_containers reported cs) = dom cs ∪ list_to_set (id <$> reported)) /\
  (forall reported cs c,
     merge_containers (reported ++ [c]) cs !! id c
     = Some (state c, yarn_container_logs c)) /\
  (forall reported cs i,
     merge_containers reported cs !! i
     = match last_record i reported with
       | Some rec => Some rec
       | None => cs !! i
       end) /\
  (forall rs cs i,
     observed rs cs !! i
     = match last_record i (reported_in rs) with
       | Some rec => Some rec
       | None => cs !! i
       end).
Proof.
  split; [|split; [|split; [|split; [|split; [|split; [|split; [|split]]]]]]].
  - intros mgr handled log l1 l2 l3 rest Hconnect Hshutdown Hrounds.
    eexists. split; [|split; [reflexivity|]].
    + unfold _await_termination, with_shutdown, monitor.
      rewrite Hconnect, Hrounds.
      rewrite (poll_loop_terminal app_id secs
                 [mkRound None (Returned UNDEFINED) (Returned l1);
                  mkRound None (Returned UNDEFINED) (Returned l2)]
                 (mkRound None (Returned SUCCEEDED) (Returned l3))
                 rest SUCCEEDED l3).
      * simpl. rewrite Hshutdown. by rewrite <- !app_assoc.
      * constructor; [by exists l1|]. constructor; [by exists l2|]. constructor.
      * done.
      * done.
    + intros i. rewrite !merge_containers_lookup, !last_record_app.
      rewrite lookup_empty.
      destruct (last_record i l3); [done|].
      destruct (last_record i l2); [done|].
      by destruct (last_record i l1).
  - intros. by apply poll_loop_terminal.
  - intros. by apply poll_loop_still_polling.
  - intros. by apply poll_loop_keeps.
  - intros. by apply poll_loop_keeps_record.
  - intros. apply merge_containers_dom.
  - intros reported cs c. unfold merge_containers.
    rewrite foldl_app. simpl. apply lookup_insert_eq.
  - intros. apply merge_containers_lookup.
  - intros. apply observed_lookup.
Qed.

(** C7 on three reports: a container that only the first poll reports, a
    container that the first two polls report in different states, and a
    container that only the last poll reports.  Then a loop that sees one
    [UNDEFINED] report and one [FAILED] report, a loop that only sees
    [UNDEFINED], and a record that stays through a poll that reports
    another container. *)
Lemma await_termination_polls_while_undefined_witness :
  let c1 := mkContainer "container_1" "RUNNING" "http://logs/1" in
  let c2 := mkContainer "container_2" "RUNNING" "http://logs/2" in
  let c2' := mkContainer "container_2" "SUCCEEDED" "http://logs/2" in
  let c3 := mkContainer "container_3" "RUNNING" "http://logs/3" in
  let undefined := mkRound None (Returned UNDEFINED) (Returned [c1]) in
  let failed := mkRound None (Returned FAILED) (Returned [c3]) in
  let mgr := mkManager (Returned "application_1") (Returned tt)
               [mkRound None (Returned UNDEFINED) (Returned [c1; c2]);
                mkRound None (Returned UNDEFINED) (Returned [c2']);
                mkRound None (Returned SUCCEEDED) (Returned [c3])]
               (fun _ => Returned tt) in
  (exists cs,
     _await_termination mgr None "application_1" 10 []
     = (Some (Returned (SUCCEEDED, cs)),
        [Connect "application_1";
         Sleep 10; ApplicationReport "application_1"; GetContainers;
         Sleep 10; ApplicationReport "application_1"; GetContainers;
         Sleep 10; ApplicationReport "application_1"; GetContainers;
         Shutdown "SUCCEEDED"]) /\
     cs !! "container_1" = Some ("RUNNING", "http://logs/1") /\
     cs !! "container_2" = Some ("SUCCEEDED", "http://logs/2") /\
     cs !! "container_3" = Some ("RUNNING", "http://logs/3") /\
     cs !! "container_4" = None) /\
  poll_loop "application_1" 10 [undefined; failed; undefined] UNDEFINED ∅ []
  = (Exited,
     mkLoop FAILED
       {[ "container_1" := ("RUNNING", "http://logs/1");
          "container_3" := ("RUNNING", "http://logs/3") ]} [undefined]
       [Sleep 10; ApplicationReport "application_1"; GetContainers;
        Sleep 10; ApplicationReport "application_1"; GetContainers]) /\
  (poll_loop "application_1" 10 [undefined] UNDEFINED ∅ []).1 = Polling /\
  "container_1" ∈ dom (containers
    (poll_loop "application_1" 10 [failed] UNDEFINED
       {[ "container_1" := ("RUNNING", "http://logs/1") ]} []).2) /\
  containers
    (poll_loop "application_1" 10 [failed] UNDEFINED
       {[ "container_1" := ("RUNNING", "http://logs/1") ]} []).2 !! "container_1"
  = Some ("RUNNING", "http://logs/1").
Proof.
  intros c1 c2 c2' c3 undefined failed mgr.
  destruct (await_termination_polls_while_undefined "application_1" 10)
    as (Hthree & Hleave & Hstay & Hkeep & Hrecord & _).
  assert (Hundecided : Forall undecided [undefined]).
  { constructor; [|constructor]. by exists [c1]. }
  split; [|split; [|split; [|split]]].
  - destruct (Hthree mgr None [] [c1; c2] [c2'] [c3] [] eq_refl eq_refl eq_refl)
      as (cs & Hrun & _ & Hcs).
    exists cs. split; [exact Hrun|].
    rewrite !Hcs. repeat split; reflexivity.
  - rewrite (Hleave [undefined] failed [undefined] FAILED [c3] ∅ [] Hundecided);
      [reflexivity|by repeat split|discriminate].
  - by rewrite (Hstay [undefined] ∅ [] Hundecided).
  - apply Hkeep. rewrite dom_singleton_L. by apply elem_of_singleton.
  - rewrite Hrecord; [reflexivity|].
    intros r reported c Hr Hget Hc.
    apply list_elem_of_singleton in Hr as ->. injection Hget as <-.
    apply list_elem_of_singleton in Hc as ->. discriminate.
Defined.

Lemma getitem_default_other key key' task_specs :
  key <> key' ->
  (getitem_default key task_specs).2 !! key' = task_specs !! key'.
Proof.
  intros Hne. unfold getitem_default.
  destruct (task_specs !! key); simpl; [done|]. by rewrite lookup_insert_ne.
Qed.

Lemma getitem_default_value key task_specs :
  (getitem_default key task_specs).1 = default NONE (task_specs !! key).
Proof. unfold getitem_default. by destruct (task_specs !! key). Qed.

(** Validation comes before every call.  When a key of [task_specs] is
    not a task type, or the number of chief instances (none, when there is
    no chief) is not [1] and assertions are on, as they are unless Python
    runs with [-O], [run] raises a [ValueError] or an [AssertionError] and
    has made no call at all: the log of calls is as it was, so nothing was
    submitted. *)
Lemma run_validates_before_submit env_name node_label_fn packaging debug
    handled application_spec mgr (task_specs : gmap string task_ref) queue log :
  ~ dom task_specs ⊆ all_task_types \/
  (debug = true /\
   instances (deref (default NONE (task_specs !! "chief"))) <> 1) ->
  exists e,
    run env_name node_label_fn packaging debug handled application_spec
      mgr task_specs queue log
    = (Some (Raised e), log) /\
    (e = AssertionError \/ exists msg, e = ValueError msg).
Proof.
  intros Hbad. unfold run.
  destruct (decide (dom task_specs ⊆ all_task_types)) as [Hkeys|Hkeys].
  2:{ eexists. split; [done|]. right. by eexists. }
  destruct Hbad as [Hbad|[-> Hbad]]; [done|].
  unfold assert_instances.
  pose proof (getitem_default_other "evaluator" "chief" task_specs) as Hother.
  destruct (getitem_default "evaluator" task_specs) as [evaluator task_specs1].
  simpl in Hother.
  destruct (instances (deref evaluator) <=? 1).
  2:{ exists AssertionError. split; [done|]. by left. }
  pose proof (getitem_default_value "chief" task_specs1) as Hch.
  destruct (getitem_default "chief" task_specs1) as [chief task_specs2].
  simpl in Hch. rewrite Hother in Hch by done. subst chief.
  destruct (Z.eqb_spec
              (instances (deref (default NONE (task_specs !! "chief")))) 1)
    as [Heq|Hne]; [done|].
  exists AssertionError. split; [done|]. by left.
Qed.

(** [run_validates_before_submit] for a job that asks for two chiefs. *)
Lemma run_validates_before_submit_witness :
  exists e,
    run "env" (fun _ => "") (Returned tt) true None refuses_no_service
      (mkManager (Returned "application_1") (Returned tt) [] (fun _ => Returned tt))
      {[ "chief" := Spec (mkTaskSpec 1024 1 2 CPU) ]} "default" []
    = (Some (Raised e), []) /\
    (e = AssertionError \/ exists msg, e = ValueError msg).
Proof.
  apply run_validates_before_submit. right. split; [done|].
  rewrite lookup_singleton_eq. simpl. lia.
Defined.

(** C4 (the code departs from it).  A chief count other than [1] is
    claimed to make [run] fail before any call to the resource manager.
    The key check is an [if ... raise ValueError], but the count checks are
    [assert] statements, which [python -O] removes: a job that asks for
    two chiefs is then submitted, with two chief instances, and monitored
    to its end.  With assertions on, the same job raises [AssertionError]
    and no call is made, as claimed. *)
Theorem run_python_O_submits_two_chiefs :
  let mgr := mkManager (Returned "application_1") (Returned tt)
               [mkRound None (Returned SUCCEEDED) (Returned [])]
               (fun _ => Returned tt) in
  let task_specs : gmap string task_ref :=
    {[ "chief" := Spec (mkTaskSpec 1024 1 2 CPU) ]} in
  let services := make_services "env" (fun _ => "") task_specs in
  run "env" (fun _ => "") (Returned tt) false None refuses_no_service
    mgr task_specs "default" []
  = (Some (Returned tt),
     [ClientStart; Submit services "default"; Connect "application_1";
      Sleep 10; ApplicationReport "application_1"; GetContainers;
      Shutdown "SUCCEEDED"; ClientClose]) /\
  service_instances <$> services !! "chief" = Some 2 /\
  run "env" (fun _ => "") (Returned tt) true None refuses_no_service
    mgr task_specs "default" []
  = (Some (Raised AssertionError), []).
Proof. repeat split; reflexivity. Qed.

End Lifecycle_facts.

(** ** More on EnvironmentScope *)

Section EnvironmentScope_more.

Import EnvironmentScope.

Implicit Types (kwargs pre rest : list (string * string)).
Implicit Types (env : gmap string string) (key value : string).

(** The first loop passes over names that are present and empty. *)
Lemma check_loop_app pre kwargs env :
  Forall (fun kv => env !! kv.1 = Some EmptyString) pre ->
  check_loop (pre ++ kwargs) env = check_loop kwargs env.
Proof.
  induction pre as [|[key value] pre IH]; intros Hpre; [done|].
  apply Forall_cons_1 in Hpre as [Hkey Hpre]. simpl in *.
  unfold bind, environ_getitem. rewrite Hkey. simpl. by apply IH.
Qed.

(** The loop behind the [yield] goes on after the names it could remove. *)
Lemma pop_loop_app pre kwargs env env1 :
  pop_loop pre env = (Returned tt, env1) ->
  pop_loop (pre ++ kwargs) env = pop_loop kwargs env1.
Proof.
  revert env. induction pre as [|[key value] pre IH]; intros env Hpre.
  - simpl in Hpre. by injection Hpre as ->.
  - simpl in *. unfold bind, except_KeyError, environ_pop in *.
    destruct (env !! key) as [v|]; [|discriminate]. by apply IH.
Qed.

(** The three ways entering the scope can go.  When the guard fails --
    some name is absent or has a non-empty value -- entering raises and the
    environment is exactly as it was.  When the guard passes and
    [os.putenv] takes every name and value, entering returns, every name
    has its new value and no other variable has changed.  When the guard
    passes and [os.putenv] refuses a name or a value (one with a NUL in
    it, say), entering raises that error with the names before it in the
    mapping already set: the update is not undone. *)
Theorem xset_environ_enter_outcomes kwargs env :
  NoDup kwargs.*1 ->
  (~ Forall (fun kv => env !! kv.1 = Some EmptyString) kwargs ->
   exists e, xset_environ_enter kwargs env = (Raised e, env)) /\
  (Forall (fun kv => env !! kv.1 = Some EmptyString) kwargs ->
   Forall (fun kv => putenv_error kv.1 kv.2 = None) kwargs ->
   exists env1,
     xset_environ_enter kwargs env = (Returned tt, env1) /\
     (forall k v, (k, v) ∈ kwargs -> env1 !! k = Some v) /\
     (forall j, j ∉ kwargs.*1 -> env1 !! j = env !! j)) /\
  (forall pre key value rest e,
     kwargs = pre ++ (key, value) :: rest ->
     Forall (fun kv => env !! kv.1 = Some EmptyString) kwargs ->
     Forall (fun kv => putenv_error kv.1 kv.2 = None) pre ->
     putenv_error key value = Some e ->
     exists env1,
       xset_environ_enter kwargs env = (Raised e, env1) /\
       (forall k v, (k, v) ∈ pre -> env1 !! k = Some v) /\
       (forall j, j ∉ pre.*1 -> env1 !! j = env !! j)).
Proof.
  intros Hnd.
  pose proof (check_loop_reads kwargs env) as Hreads.
  pose proof (check_loop_passes kwargs env) as Hpasses.
  split; [|split].
  - intros Hnot. destruct (check_loop kwargs env) as [[[]|e] env0] eqn:Hcheck.
    + destruct Hnot. by apply Hpasses.
    + exists e. apply xset_environ_enter_guard_fails_clean. by rewrite Hcheck.
  - intros Hall Hlegal. apply Hpasses in Hall.
    unfold xset_environ_enter, bind.
    destruct (check_loop kwargs env) as [r env0]; simpl in *; subst r env0.
    rewrite environ_update_legal by done.
    eexists. split; [done|]. split.
    + intros k v Hin. by apply update_lookup_in.
    + intros j Hj. by apply update_lookup_notin.
  - intros pre key value rest e -> Hall Hlegal Hbad. apply Hpasses in Hall.
    unfold xset_environ_enter, bind.
    destruct (check_loop _ env) as [r env0]; simpl in *; subst r env0.
    rewrite (environ_update_stops _ _ _ _ _ _ Hlegal Hbad).
    rewrite fmap_app in Hnd. apply NoDup_app in Hnd as [Hnd_pre _].
    eexists. split; [done|]. split.
    + intros k v Hin. by apply update_lookup_in.
    + intros j Hj. by apply update_lookup_notin.
Qed.

Lemma xset_environ_enter_outcomes_witness :
  let nul := String "a" (String "000" "b") in
  (exists e,
     xset_environ_enter [("TF_CONFIG", "{}"); ("RANK", "0")]
       {[ "TF_CONFIG" := ""; "HOME" := "/root" ]}
     = (Raised e, {[ "TF_CONFIG" := ""; "HOME" := "/root" ]})) /\
  (exists env1,
     xset_environ_enter [("TF_CONFIG", "{}"); ("RANK", "0")]
       {[ "TF_CONFIG" := ""; "RANK" := ""; "HOME" := "/root" ]}
     = (Returned tt, env1) /\
     env1 !! "RANK" = Some "0" /\ env1 !! "HOME" = Some "/root") /\
  (exists env1,
     xset_environ_enter [("TF_CONFIG", "{}"); ("RANK", nul)]
       {[ "TF_CONFIG" := ""; "RANK" := "" ]}
     = (Raised (ValueError "embedded null byte"), env1) /\
     env1 !! "TF_CONFIG" = Some "{}" /\ env1 !! "RANK" = Some "").
Proof.
  intros nul.
  assert (Hnd : forall v, NoDup ([("TF_CONFIG", "{}"); ("RANK", v)]
                                   : list (string * string)).*1).
  { intros v. apply (bool_decide_unpack _). vm_compute. exact I. }
  split; [|split].
  - destruct (xset_environ_enter_outcomes _
                {[ "TF_CONFIG" := ""; "HOME" := "/root" ]} (Hnd "0"))
      as (Hguard & _ & _).
    apply Hguard. intros Hall.
    apply Forall_cons_1 in Hall as [_ Hall].
    apply Forall_cons_1 in Hall as [Hrank _]. discriminate.
  - destruct (xset_environ_enter_outcomes _
                {[ "TF_CONFIG" := ""; "RANK" := ""; "HOME" := "/root" ]} (Hnd "0"))
      as (_ & Hall & _).
    destruct Hall as (env1 & Hrun & Hset & Hkept).
    + repeat constructor.
    + repeat constructor.
    + exists env1. split; [exact Hrun|]. split.
      * apply Hset. right. left.
      * rewrite Hkept; [reflexivity|].
        intros Hin. apply elem_of_cons in Hin as [Heq|Hin]; [discriminate|].
        apply list_elem_of_singleton in Hin. discriminate.
  - destruct (xset_environ_enter_outcomes _
                {[ "TF_CONFIG" := ""; "RANK" := "" ]} (Hnd nul))
      as (_ & _ & Hpartial).
    destruct (Hpartial [("TF_CONFIG", "{}")] "RANK" nul []
                (ValueError "embedded null byte") eq_refl)
      as (env1 & Hrun & Hset & Hkept).
    + repeat constructor.
    + repeat constructor.
    + reflexivity.
    + exists env1. split; [exact Hrun|]. split.
      * apply Hset. left.
      * rewrite Hkept; [reflexivity|].
        intros Hin. apply list_elem_of_singleton in Hin. discriminate.
Defined.

(** The error of entering the scope is decided by the first name, in the
    order of the mapping, that is absent or has a non-empty value: an
    absent name gives the [KeyError] of the lookup, a name with a non-empty
    value gives the [RuntimeError] whose message carries the name and the
    value that was to be set (not the value found). *)
Theorem xset_environ_enter_first_offender pre key value rest env :
  Forall (fun kv => env !! kv.1 = Some EmptyString) pre ->
  (env !! key = None ->
   xset_environ_enter (pre ++ (key, value) :: rest) env
   = (Raised (KeyError key), env)) /\
  (forall found, env !! key = Some found -> found <> EmptyString ->
   xset_environ_enter (pre ++ (key, value) :: rest) env
   = (Raised (already_set key value), env)).
Proof.
  intros Hpre. unfold xset_environ_enter, bind.
  rewrite check_loop_app by done. simpl.
  unfold bind, environ_getitem. split.
  - intros ->. done.
  - intros found -> Hne. destruct found; [done|]. done.
Qed.

Lemma xset_environ_enter_first_offender_witness :
  xset_environ_enter [("RANK", "0"); ("TF_CONFIG", "{}")]
    {[ "RANK" := ""; "TF_CONFIG" := "old" ]}
  = (Raised (RuntimeError "TF_CONFIG already set in os.environ: {}"),
     {[ "RANK" := ""; "TF_CONFIG" := "old" ]}) /\
  xset_environ_enter [("RANK", "0"); ("TF_CONFIG", "{}")] {[ "RANK" := "" ]}
  = (Raised (KeyError "TF_CONFIG"), {[ "RANK" := "" ]}).
Proof.
  split.
  - destruct (xset_environ_enter_first_offender [("RANK", "0")] "TF_CONFIG" "{}" []
                {[ "RANK" := ""; "TF_CONFIG" := "old" ]}) as [_ Hset].
    + repeat constructor.
    + apply (Hset "old"); [reflexivity|discriminate].
  - destruct (xset_environ_enter_first_offender [("RANK", "0")] "TF_CONFIG" "{}" []
                {[ "RANK" := "" ]}) as [Habsent _].
    + repeat constructor.
    + apply Habsent. reflexivity.
Defined.

(** Leaving the scope stops at the first name that is missing: the names
    before it in the mapping have been removed, the [RuntimeError] names
    the missing one, and every other variable -- the names after it
    included -- is as the body left it. *)
Theorem xset_environ_exit_stops_at_missing pre key value rest env :
  NoDup (pre ++ (key, value) :: rest).*1 ->
  (forall k, k ∈ pre.*1 -> is_Some (env !! k)) ->
  env !! key = None ->
  exists env',
    xset_environ_exit (pre ++ (key, value) :: rest) env
    = (Raised (is_missing key), env') /\
    (forall k, k ∈ pre.*1 -> env' !! k = None) /\
    (forall j, j ∉ pre.*1 -> env' !! j = env !! j).
Proof.
  intros Hnd Hpre Hkey.
  rewrite fmap_app, fmap_cons in Hnd. simpl in Hnd.
  apply NoDup_app in Hnd as (Hnd_pre & Hdisj & _).
  destruct (pop_loop_all_present pre env Hnd_pre Hpre)
    as (env1 & Hrun & Hgone & Hkept).
  exists env1. split; [|done].
  unfold xset_environ_exit. rewrite (pop_loop_app _ _ _ _ Hrun). simpl.
  unfold bind, except_KeyError, environ_pop.
  rewrite Hkept, Hkey; [done|].
  intros Hin. apply (Hdisj key Hin). left.
Qed.

Lemma xset_environ_exit_stops_at_missing_witness :
  exists env',
    xset_environ_exit [("A", "1"); ("B", "2"); ("C", "3")]
      {[ "A" := "1"; "C" := "3" ]}
    = (Raised (RuntimeError "B is missing from os.environ"), env') /\
    env' !! "A" = None /\ env' !! "C" = Some "3".
Proof.
  destruct (xset_environ_exit_stops_at_missing [("A", "1")] "B" "2" [("C", "3")]
              {[ "A" := "1"; "C" := "3" ]})
    as (env' & Hrun & Hgone & Hkept).
  - apply (bool_decide_unpack _). vm_compute. exact I.
  - intros k Hk. apply list_elem_of_singleton in Hk as ->. by eexists.
  - reflexivity.
  - exists env'. split; [exact Hrun|]. split.
    + apply Hgone. apply list_elem_of_singleton. reflexivity.
    + rewrite Hkept; [reflexivity|].
      intros Hin. apply list_elem_of_singleton in Hin. discriminate.
Defined.

(** Scopes exclude each other on the names they set to a non-empty value:
    inside a scope that set [key] to such a value, entering a scope whose
    first name not present-and-empty is [key] raises the [RuntimeError]
    and changes nothing. *)
Theorem xset_environ_nested_excluded kwargs env env1 key value pre value' rest :
  NoDup kwargs.*1 ->
  xset_environ_enter kwargs env = (Returned tt, env1) ->
  (key, value) ∈ kwargs -> value <> EmptyString ->
  Forall (fun kv => env1 !! kv.1 = Some EmptyString) pre ->
  xset_environ_enter (pre ++ (key, value') :: rest) env1
  = (Raised (already_set key value'), env1).
Proof.
  intros Hnd Henter Hin Hne Hpre.
  assert (Hkey : env1 !! key = Some value).
  { rewrite (xset_environ_enter_Returned _ _ _ Henter).
    by apply update_lookup_in. }
  unfold xset_environ_enter, bind.
  rewrite check_loop_app by done. simpl.
  unfold bind, environ_getitem. rewrite Hkey.
  destruct value; [done|]. done.
Qed.

Lemma xset_environ_nested_excluded_witness :
  xset_environ_enter [("TF_CONFIG", "{}")] {[ "TF_CONFIG" := "" ]}
  = (Returned tt, {[ "TF_CONFIG" := "{}" ]}) /\
  xset_environ_enter [("TF_CONFIG", "again")] {[ "TF_CONFIG" := "{}" ]}
  = (Raised (RuntimeError "TF_CONFIG already set in os.environ: again"),
     {[ "TF_CONFIG" := "{}" ]}).
Proof.
  assert (Henter :
    xset_environ_enter [("TF_CONFIG", "{}")] {[ "TF_CONFIG" := "" ]}
    = (Returned tt, {[ "TF_CONFIG" := "{}" ]})) by reflexivity.
  split; [exact Henter|].
  apply (xset_environ_nested_excluded [("TF_CONFIG", "{}")] {[ "TF_CONFIG" := "" ]}
           {[ "TF_CONFIG" := "{}" ]} "TF_CONFIG" "{}" [] "again" []).
  - apply NoDup_singleton.
  - exact Henter.
  - apply list_elem_of_singleton. reflexivity.
  - discriminate.
  - constructor.
Defined.

End EnvironmentScope_more.

(** ** More on ClusterSpecBuilder *)

Section ClusterSpecBuilder_more.

Import ClusterSpecBuilder.

Implicit Types (spec : gmap string (list string)) (kv : gmap string string).
Implicit Types (reserved log : list string) (slot : string * Z).
Implicit Types (todo pre rest : list (string * Z)).

Lemma append_from_kv_wait_slots kv role (idxs : list Z) spec log :
  append_from_kv kv role idxs spec log
  = wait_slots kv ((fun idx => (role, idx)) <$> idxs) spec log.
Proof.
  revert spec log. induction idxs as [|idx idxs IH]; intros spec log; [done|].
  rewrite fmap_cons. simpl. unfold slot_key. simpl.
  destruct (kv_wait kv (barrier_key role idx) log) as [[addr|key] log']; [|done].
  apply IH.
Qed.

Lemma wait_slots_app kv todo1 todo2 spec log :
  wait_slots kv (todo1 ++ todo2) spec log
  = match wait_slots kv todo1 spec log with
    | (Got spec', log') => wait_slots kv todo2 spec' log'
    | (BlocksOn key, log') => (BlocksOn key, log')
    end.
Proof.
  revert spec log. induction todo1 as [|slot todo1 IH]; intros spec log; [done|].
  simpl. destruct (kv_wait kv (slot_key slot) log) as [[addr|key] log']; [|done].
  apply IH.
Qed.

(** [_spec_from_kv] is one pass over the slots in the order of
    [kv_order]. *)
Lemma _spec_from_kv_wait_slots kv num_workers num_ps log :
  _spec_from_kv kv num_workers num_ps log
  = wait_slots kv (kv_order num_workers num_ps) ∅ log.
Proof.
  unfold _spec_from_kv, kv_order. simpl.
  change (slot_key ("chief", 0%Z)) with "chief:0".
  destruct (kv_wait kv "chief:0" log) as [[chief|key] log']; [|done].
  replace (setdefault_append "chief" chief ∅)
    with ({[ "chief" := [chief] ]} : gmap string (list string)).
  2:{ unfold setdefault_append. rewrite lookup_empty. simpl.
      by rewrite insert_empty. }
  rewrite wait_slots_app. unfold slots.
  rewrite <- append_from_kv_wait_slots.
  destruct (append_from_kv kv "ps" (range num_ps) _ log') as [[spec|key] log''];
    [|done].
  by rewrite append_from_kv_wait_slots.
Qed.

Lemma wait_slots_blocked kv pre slot rest : forall spec log,
  (forall s, s ∈ pre -> is_Some (kv !! slot_key s)) ->
  kv !! slot_key slot = None ->
  wait_slots kv (pre ++ slot :: rest) spec log
  = (BlocksOn (slot_key slot), log ++ (slot_key <$> pre) ++ [slot_key slot]).
Proof.
  induction pre as [|s pre IH]; intros spec log Hpre Hslot.
  - simpl. unfold kv_wait. by rewrite Hslot.
  - simpl. unfold kv_wait at 1.
    destruct (Hpre s) as [addr ->]; [left|].
    rewrite IH; [|intros s' Hs'; apply Hpre; by right|done].
    by rewrite <- app_assoc.
Qed.

(** When the iterator has fewer addresses than the job has tasks,
    [_spec_from_iter] raises [StopIteration] and leaves the iterator
    exhausted: no partial table comes back. *)
Theorem spec_from_iter_short_StopIteration num_workers num_ps reserved :
  (length reserved < length (iter_order num_workers num_ps))%nat ->
  _spec_from_iter num_workers num_ps reserved = (Raised StopIteration, []).
Proof.
  unfold iter_order. rewrite length_cons, length_app, !length_slots.
  intros Hlen. unfold _spec_from_iter, bind.
  destruct reserved as [|chief reserved]; [done|]. simpl in *.
  destruct (decide (length reserved < Z.to_nat num_workers)%nat) as [Hw|Hw].
  - rewrite append_from_iter_short; [done|]. rewrite length_range. lia.
  - rewrite append_from_iter_enough by (rewrite length_range; lia).
    rewrite append_from_iter_short; [done|].
    rewrite !length_range, length_drop. lia.
Qed.

Lemma spec_from_iter_short_StopIteration_witness :
  _spec_from_iter 2 1 ["h:1"; "h:2"; "h:3"] = (Raised StopIteration, []).
Proof.
  apply spec_from_iter_short_StopIteration. vm_compute. lia.
Defined.

(** [_spec_from_kv] stops at the first key, in the order chief, ps,
    workers, that is not published: it has waited on the keys before it
    and on that key, on none after it, and there it blocks. *)
Theorem spec_from_kv_blocks_on_first_unpublished kv num_workers num_ps
    pre slot rest log :
  kv_order num_workers num_ps = pre ++ slot :: rest ->
  (forall s, s ∈ pre -> is_Some (kv !! slot_key s)) ->
  kv !! slot_key slot = None ->
  _spec_from_kv kv num_workers num_ps log
  = (BlocksOn (slot_key slot), log ++ (slot_key <$> pre) ++ [slot_key slot]).
Proof.
  intros Horder Hpre Hslot.
  rewrite _spec_from_kv_wait_slots, Horder. by apply wait_slots_blocked.
Qed.

Lemma spec_from_kv_blocks_on_first_unpublished_witness :
  _spec_from_kv
    (list_to_map [("chief:0", "h:1"); ("ps:0", "h:2"); ("worker:1", "h:4")])
    2 1 []
  = (BlocksOn "worker:0", ["chief:0"; "ps:0"; "worker:0"]).
Proof.
  apply (spec_from_kv_blocks_on_first_unpublished _ 2 1
           [("chief", 0%Z); ("ps", 0%Z)] ("worker", 0%Z) [("worker", 1%Z)] []).
  - reflexivity.
  - intros s Hs.
    repeat (apply elem_of_cons in Hs as [->|Hs]; [by eexists|]).
    by apply elem_of_nil in Hs.
  - reflexivity.
Defined.

Lemma elem_of_slots role n slot :
  slot ∈ slots role n -> slot.1 = role.
Proof.
  unfold slots. intros Hin. apply list_elem_of_fmap in Hin as (idx & -> & _).
  done.
Qed.

Lemma NoDup_slots role n : NoDup (slots role n).
Proof.
  unfold slots, range. apply NoDup_fmap_2_strong; [|apply NoDup_seqZ].
  intros x y _ _ Heq. by injection Heq.
Qed.

Lemma NoDup_kv_order num_workers num_ps : NoDup (kv_order num_workers num_ps).
Proof.
  unfold kv_order. apply NoDup_cons. split.
  - intros Hin. apply elem_of_app in Hin as [Hin|Hin];
      apply elem_of_slots in Hin; discriminate.
  - apply NoDup_app. split; [apply NoDup_slots|]. split; [|apply NoDup_slots].
    intros slot Hps Hw. apply elem_of_slots in Hps, Hw.
    rewrite Hps in Hw. discriminate.
Qed.

Lemma elem_of_kv_order_role num_workers num_ps slot :
  slot ∈ kv_order num_workers num_ps ->
  slot.1 = "chief" \/ slot.1 = "ps" \/ slot.1 = "worker".
Proof.
  unfold kv_order. intros Hin. apply elem_of_cons in Hin as [->|Hin]; [by left|].
  apply elem_of_app in Hin as [Hin|Hin]; apply elem_of_slots in Hin; auto.
Qed.

(** The keys of the three roles tell the tasks apart. *)
Lemma slot_key_inj_roles (r1 r2 : string) (i1 i2 : Z) :
  (r1 = "chief" \/ r1 = "ps" \/ r1 = "worker") ->
  (r2 = "chief" \/ r2 = "ps" \/ r2 = "worker") ->
  slot_key (r1, i1) = slot_key (r2, i2) -> (r1, i1) = (r2, i2).
Proof.
  unfold slot_key, barrier_key. simpl fst. simpl snd.
  intros [-> | [-> | ->]] [-> | [-> | ->]] Heq;
    try (apply (inj (String.app _)), (inj (String.app ":")), (inj pretty) in Heq;
         by subst);
    cbn [String.app] in Heq; discriminate.
Qed.

Lemma NoDup_slot_keys num_workers num_ps :
  NoDup (slot_key <$> kv_order num_workers num_ps).
Proof.
  apply NoDup_fmap_2_strong; [|apply NoDup_kv_order].
  intros [r1 i1] [r2 i2] H1 H2.
  apply elem_of_kv_order_role in H1, H2. by apply slot_key_inj_roles.
Qed.

Lemma wait_slots_log kv todo : forall spec log,
  exists m, (wait_slots kv todo spec log).2 = log ++ take m (slot_key <$> todo).
Proof.
  induction todo as [|slot todo IH]; intros spec log.
  - exists 0%nat. simpl. by rewrite app_nil_r.
  - simpl. unfold kv_wait. destruct (kv !! slot_key slot) as [addr|].
    + destruct (IH (setdefault_append slot.1 addr spec) (log ++ [slot_key slot]))
        as [m Hm].
      exists (S m). rewrite Hm. simpl. by rewrite <- app_assoc.
    + by exists 1%nat.
Qed.

(** No two tasks of a job share a barrier key: whatever the store holds,
    the keys [_spec_from_kv] waits on are pairwise distinct, for every pair
    of counts. *)
Theorem barrier_keys_distinct kv num_workers num_ps :
  NoDup (_spec_from_kv kv num_workers num_ps []).2.
Proof.
  rewrite _spec_from_kv_wait_slots.
  destruct (wait_slots_log kv (kv_order num_workers num_ps) ∅ []) as [m ->].
  simpl. eapply sublist_NoDup; [apply NoDup_slot_keys|apply sublist_take].
Qed.

Lemma fmap_Some_is_Some {A B} (f : A -> option B) (l : list A) (l' : list B) x :
  f <$> l = Some <$> l' -> x ∈ l -> is_Some (f x).
Proof.
  intros Heq Hin.
  assert (Hfx : f x ∈ Some <$> l').
  { rewrite <- Heq. apply list_elem_of_fmap. by exists x. }
  apply list_elem_of_fmap in Hfx as (y & -> & _). by eexists.
Qed.

(** The two builders agree.  When the store holds, under the key of each
    slot, the address the iterator gives for that slot, the table
    [_spec_from_kv] returns compares equal ([==]) to the table
    [_spec_from_iter] returns: the same roles, each with the same list of
    addresses.  The order in which the roles were inserted, which a table
    of the model does not record and [==] does not compare, is the one
    thing that differs between the two dictionaries. *)
Theorem spec_builders_agree num_workers num_ps reserved kv log :
  (length (iter_order num_workers num_ps) <= length reserved)%nat ->
  (fun slot => kv !! slot_key slot) <$> iter_order num_workers num_ps
  = Some <$> take (length (iter_order num_workers num_ps)) reserved ->
  exists spec,
    (_spec_from_iter num_workers num_ps reserved).1 = Returned spec /\
    (_spec_from_kv kv num_workers num_ps log).1 = Got spec.
Proof.
  intros Hlen Hkv.
  destruct (_spec_from_iter_table num_workers num_ps reserved Hlen)
    as (chief & workers & pss & Htake & Hw & Hp & Hrun).
  rewrite Htake in Hkv. unfold iter_order in Hkv.
  rewrite !fmap_cons, !fmap_app in Hkv.
  injection Hkv as Hchief Hrest.
  apply app_inj_1 in Hrest as [Hworkers Hpss];
    [|by rewrite !length_fmap, length_slots].
  change (slot_key ("chief", 0%Z)) with "chief:0" in Hchief.
  destruct (_spec_from_kv_table kv num_workers num_ps log)
    as (chief' & workers' & pss' & Hchief' & Hworkers' & Hpss' & _ & _ & Hrun').
  { intros slot Hin. unfold kv_order in Hin.
    apply elem_of_cons in Hin as [->|Hin]; [by eexists|].
    apply elem_of_app in Hin as [Hin|Hin].
    - by apply (fmap_Some_is_Some _ _ _ _ Hpss).
    - by apply (fmap_Some_is_Some _ _ _ _ Hworkers). }
  rewrite Hchief in Hchief'. injection Hchief' as <-.
  rewrite Hworkers in Hworkers'. apply (inj (fmap Some)) in Hworkers' as <-.
  rewrite Hpss in Hpss'. apply (inj (fmap Some)) in Hpss' as <-.
  eexists. by rewrite Hrun, Hrun'.
Qed.

Lemma spec_builders_agree_witness :
  exists spec,
    (_spec_from_iter 2 1 ["h:1"; "h:2"; "h:3"; "h:4"]).1 = Returned spec /\
    (_spec_from_kv
       (list_to_map [("chief:0", "h:1"); ("worker:0", "h:2");
                     ("worker:1", "h:3"); ("ps:0", "h:4")]) 2 1 []).1
    = Got spec.
Proof.
  apply spec_builders_agree.
  - vm_compute. lia.
  - reflexivity.
Defined.

End ClusterSpecBuilder_more.

(** ** More on RemoteClosure *)

Section RemoteClosure_more.

Import RemoteClosure.

Lemma b64encode_length (data : list byte) :
  String.length (b64encode data) = (4 * ((length data + 2) / 3))%nat.
Proof.
  induction data as [|b1|b1 b2|b1 b2 b3 data IH] using list_ind_by3;
    try reflexivity.
  change (b64encode (b1 :: b2 :: b3 :: data)) with
    (String (b2a (Z.shiftr (byte_to_Z b1) 2))
       (String (b2a (Z.lor (Z.shiftl (Z.land (byte_to_Z b1) 3) 4)
                       (Z.shiftr (byte_to_Z b2) 4)))
          (String (b2a (Z.lor (Z.shiftl (Z.land (byte_to_Z b2) 15) 2)
                          (Z.shiftr (byte_to_Z b3) 6)))
             (String (b2a (Z.land (byte_to_Z b3) 63)) (b64encode data))))).
  cbn [String.length length]. rewrite IH.
  replace (S (S (S (length data))) + 2)%nat with (length data + 2 + 1 * 3)%nat
    by lia.
  rewrite Nat.div_add by lia. lia.
Qed.

(** A skipped character in the middle of a text does not change what the
    decoder's loop makes of it. *)
Lemma a2b_loop_skip (c : ascii) (s2 : string) (s1 : string) :
  Ascii.eqb c BASE64_PAD = false -> table_a2b_base64 c = None ->
  forall quad_pos leftchar pads bin,
    a2b_loop (s1 ++ String c s2) quad_pos leftchar pads bin
    = a2b_loop (s1 ++ s2) quad_pos leftchar pads bin.
Proof.
  intros Hpad Htab. induction s1 as [|d s1 IH]; intros quad_pos leftchar pads bin.
  - simpl. by rewrite Hpad, Htab.
  - simpl.
    destruct (Ascii.eqb d BASE64_PAD).
    + destruct (2 <=? quad_pos)%Z; [|apply IH].
      destruct (4 <=? quad_pos + (pads + 1))%Z; [done|apply IH].
    + destruct (table_a2b_base64 d) as [this_ch|]; [|apply IH].
      destruct (quad_pos =? 0)%Z; [apply IH|].
      destruct (quad_pos =? 1)%Z; [apply IH|].
      destruct (quad_pos =? 2)%Z; apply IH.
Qed.

Lemma forallb_is_ascii_skip (c : ascii) (s1 s2 : string) :
  is_ascii c = true ->
  forallb is_ascii (list_ascii_of_string (s1 ++ String c s2))
  = forallb is_ascii (list_ascii_of_string (s1 ++ s2)).
Proof.
  intros Hc. induction s1 as [|d s1 IH]; simpl.
  - by rewrite Hc.
  - by rewrite IH.
Qed.

Section dill_more.

Context {fn arg res : Type}.
Variable dumps : fn -> outcome (list byte).
Variable loads : list byte -> outcome fn.

(** The text [encode_fn] returns is four characters for every three bytes
    of the pickle, the last group padded to four: its length is a multiple
    of four and never zero for a pickle that is not empty. *)
Theorem encode_fn_length (f : fn) (s : string) :
  encode_fn dumps f = Returned s ->
  exists pickled,
    dumps f = Returned pickled /\
    String.length s = (4 * ((length pickled + 2) / 3))%nat.
Proof.
  unfold encode_fn. destruct (dumps f) as [pickled|e]; [|discriminate].
  intros [= <-]. exists pickled. split; [done|apply b64encode_length].
Qed.

(** [encode_fn] loses nothing: two callables with the same text have the
    same pickle. *)
Theorem encode_fn_same_text_same_pickle (f g : fn) (s : string) :
  encode_fn dumps f = Returned s -> encode_fn dumps g = Returned s ->
  dumps f = dumps g.
Proof.
  unfold encode_fn.
  destruct (dumps f) as [p1|e1]; [|discriminate].
  destruct (dumps g) as [p2|e2]; [|discriminate].
  intros [= <-] [= Heq].
  assert (Hdec : b64decode (b64encode p2) = b64decode (b64encode p1))
    by (by rewrite Heq).
  rewrite !b64decode_b64encode in Hdec. by injection Hdec as ->.
Qed.

(** [decode_fn] passes over characters that are neither in the base64
    alphabet nor the padding -- a line break, a space -- wherever they
    stand in the text: the text decodes as it does without them. *)
Theorem decode_fn_skips_other_characters (c : ascii) (s1 s2 : string) :
  is_ascii c = true -> c <> BASE64_PAD -> table_a2b_base64 c = None ->
  decode_fn loads (s1 ++ String c s2) = decode_fn loads (s1 ++ s2).
Proof.
  intros Hascii Hpad Htab. unfold decode_fn, b64decode.
  rewrite forallb_is_ascii_skip by done.
  rewrite a2b_loop_skip; [done| |done].
  by apply Ascii.eqb_neq.
Qed.

(** A text with a character outside ASCII is refused with a [ValueError]
    before anything is decoded or unpickled. *)
Theorem decode_fn_non_ascii_ValueError (s : string) (c : ascii) :
  c ∈ list_ascii_of_string s -> is_ascii c = false ->
  decode_fn loads s
  = Raised (ValueError "string argument should contain only ASCII characters").
Proof.
  intros Hin Hc. unfold decode_fn, b64decode.
  replace (forallb is_ascii (list_ascii_of_string s)) with false; [done|].
  symmetry. apply not_true_is_false. intros Hall.
  rewrite forallb_forall in Hall.
  rewrite (Hall c) in Hc; [discriminate|]. by apply list_elem_of_In.
Qed.

End dill_more.

Lemma encode_fn_length_witness :
  let dumps := fun f : byte => Returned [f; f] in
  encode_fn dumps "A"%byte = Returned "QUE=" /\
  exists pickled,
    dumps "A"%byte = Returned pickled /\
    String.length "QUE=" = (4 * ((length pickled + 2) / 3))%nat.
Proof.
  intros dumps.
  assert (Henc : encode_fn dumps "A"%byte = Returned "QUE=") by reflexivity.
  split; [exact Henc|]. exact (encode_fn_length dumps "A"%byte "QUE=" Henc).
Defined.

Lemma encode_fn_same_text_same_pickle_witness :
  let dumps := fun f : bool => Returned ["A"%byte] in
  encode_fn dumps true = Returned "QQ==" /\
  encode_fn dumps false = Returned "QQ==" /\
  dumps true = dumps false.
Proof.
  intros dumps.
  assert (H1 : encode_fn dumps true = Returned "QQ==") by reflexivity.
  assert (H2 : encode_fn dumps false = Returned "QQ==") by reflexivity.
  split; [exact H1|]. split; [exact H2|].
  exact (encode_fn_same_text_same_pickle dumps true false "QQ==" H1 H2).
Defined.

Lemma decode_fn_skips_other_characters_witness :
  let loads := fun pickled : list byte => Returned pickled in
  is_ascii "010"%char = true /\ "010"%char <> BASE64_PAD /\
  table_a2b_base64 "010"%char = None /\
  decode_fn loads ("QQ" ++ String "010"%char "==")
  = decode_fn loads ("QQ" ++ "==").
Proof.
  intros loads.
  assert (H1 : is_ascii "010"%char = true) by reflexivity.
  assert (H2 : "010"%char <> BASE64_PAD) by discriminate.
  assert (H3 : table_a2b_base64 "010"%char = None) by reflexivity.
  split; [exact H1|]. split; [exact H2|]. split; [exact H3|].
  exact (decode_fn_skips_other_characters loads "010"%char "QQ" "==" H1 H2 H3).
Defined.

Lemma decode_fn_non_ascii_ValueError_witness :
  let loads := fun pickled : list byte => Returned pickled in
  decode_fn loads (String "Q"%char (String "233"%char "=="))
  = Raised (ValueError "string argument should contain only ASCII characters").
Proof.
  intros loads.
  apply (decode_fn_non_ascii_ValueError loads _ "233"%char).
  - right. left.
  - reflexivity.
Defined.

End RemoteClosure_more.

(** ** More on PortReservation *)

Section PortReservation_more.

Import PortReservation.

Implicit Types (stack : list (option N)) (answers pre rest : list bind_result).
Implicit Types (host : string).

(** An answer after which the loop goes on: a port, or [EADDRINUSE]. *)
Lemma loop_turn_goes_on host stack answer :
  (forall errno, answer = BindFails errno -> errno = EADDRINUSE) ->
  loop_turn host stack answer
  = (match answer with
     | Bound port => Yields (host ++ ":" ++ pretty port)
     | BindFails _ => Continues
     end,
     match answer with
     | Bound port => Some port
     | BindFails _ => None
     end :: stack).
Proof.
  intros Hok. destruct answer as [port|errno]; [done|].
  simpl. by rewrite (Hok errno eq_refl).
Qed.

(** While no [bind] fails for good, the generator yields one address for
    each [bind] that succeeds, in order, and it closes nothing: when it is
    suspended its stack holds one open socket for every [bind] it tried --
    the failed ones included -- on top of the sockets it began with. *)
Theorem iter_available_sock_addrs_holds_every_socket host answers :
  forall stack,
  Forall (fun answer => forall errno,
            answer = BindFails errno -> errno = EADDRINUSE) answers ->
  iter_available_sock_addrs host stack answers
  = (omap (fun answer =>
             match answer with
             | Bound port => Some (host ++ ":" ++ pretty port)%string
             | BindFails _ => None
             end) answers,
     Returned
       (reverse ((fun answer =>
                    match answer with
                    | Bound port => Some port
                    | BindFails _ => None
                    end) <$> answers) ++ stack)).
Proof.
  induction answers as [|answer answers IH]; intros stack Hok; [done|].
  apply Forall_cons_1 in Hok as [Hanswer Hok].
  cbn [iter_available_sock_addrs]. rewrite loop_turn_goes_on by done.
  rewrite fmap_cons, reverse_cons, <- app_assoc. simpl.
  destruct answer as [port|errno]; rewrite IH by done; done.
Qed.

Lemma iter_available_sock_addrs_holds_every_socket_witness :
  iter_available_sock_addrs "node1" []
    [Bound 50001; BindFails EADDRINUSE; Bound 50002]
  = (["node1:50001"; "node1:50002"],
     Returned [Some 50002%N; None; Some 50001%N]).
Proof.
  apply (iter_available_sock_addrs_holds_every_socket "node1"
           [Bound 50001; BindFails EADDRINUSE; Bound 50002] []).
  repeat constructor; intros errno [=]; done.
Defined.

(** A [bind] that fails with another [errno] than [EADDRINUSE] ends the
    generator: the addresses yielded before it stand, the [socket.error]
    is raised, and no later [bind] is made, whatever the operating system
    would have answered. *)
Theorem iter_available_sock_addrs_stops_at_failure host pre errno rest stack :
  Forall (fun answer => forall errno,
            answer = BindFails errno -> errno = EADDRINUSE) pre ->
  errno <> EADDRINUSE ->
  iter_available_sock_addrs host stack (pre ++ BindFails errno :: rest)
  = (omap (fun answer =>
             match answer with
             | Bound port => Some (host ++ ":" ++ pretty port)%string
             | BindFails _ => None
             end) pre,
     Raised (SocketError errno)).
Proof.
  intros Hpre Hne. revert stack.
  induction pre as [|answer pre IH]; intros stack.
  - simpl. destruct (Z.eqb_spec errno EADDRINUSE) as [->|_]; done.
  - apply Forall_cons_1 in Hpre as [Hanswer Hpre].
    rewrite <- app_comm_cons. cbn [iter_available_sock_addrs].
    rewrite loop_turn_goes_on by done.
    destruct answer as [port|errno']; rewrite IH by done; done.
Qed.

Lemma iter_available_sock_addrs_stops_at_failure_witness :
  iter_available_sock_addrs "node1" []
    [Bound 50001; BindFails 13; Bound 50002]
  = (["node1:50001"], Raised (SocketError 13)).
Proof.
  apply (iter_available_sock_addrs_stops_at_failure "node1"
           [Bound 50001] 13 [Bound 50002] []).
  - repeat constructor; intros errno [=].
  - unfold EADDRINUSE. lia.
Defined.

End PortReservation_more.

(** ** MonitoredThread *)

Section MonitoredThread_facts.

Import MonitoredThread.



End MonitoredThread_facts.

(** ** More on the JobLifecycleCoordinator *)

Section Lifecycle_more.

Import Lifecycle.

Local Open Scope Z_scope.

Implicit Types (mgr : manager) (rs pre rest : list round) (log : list call).
Implicit Types (cs : gmap string (string * string)) (st : FinalStatus).
Implicit Types (app_id : string) (secs : Z).

(** The calls of the loop, however it ends: full turns, then at most the
    beginning of one turn -- the sleep, or the sleep and the report. *)
Lemma poll_loop_calls_shape app_id secs rs : forall st cs log,
  exists n tail,
    calls (poll_loop app_id secs rs st cs log).2
    = log ++ polls app_id secs n ++ tail /\
    (tail = [] \/ tail = [Sleep secs] \/
     tail = [Sleep secs; ApplicationReport app_id]).
Proof.
  induction rs as [|r rs IH]; intros st cs log.
  - exists 0%nat, []. split; [|by left]. destruct st; simpl; by rewrite app_nil_r.
  - destruct st; simpl;
      try (exists 0%nat, []; split; [by rewrite app_nil_r|by left]).
    destruct (sleep_interrupt r) as [e|].
    { exists 0%nat, [Sleep secs]. split; [done|]. right. by left. }
    destruct (report r) as [st'|e].
    2:{ exists 0%nat, [Sleep secs; ApplicationReport app_id].
        split; [by rewrite <- app_assoc|]. right. by right. }
    destruct (get_containers r) as [reported|e].
    2:{ exists 1%nat, []. split; [|by left]. simpl. by rewrite <- !app_assoc. }
    destruct (IH st' (merge_containers reported cs)
                (((log ++ [Sleep secs]) ++ [ApplicationReport app_id])
                 ++ [GetContainers]))
      as (n & tail & Hcalls & Htail).
    exists (S n), tail. split; [|done].
    rewrite Hcalls, polls_S. simpl. by rewrite <- !app_assoc.
Qed.

(** How the loop can end. *)
Lemma poll_loop_end app_id secs rs : forall st cs log,
  match poll_loop app_id secs rs st cs log with
  | (Exited, s) => final_status s <> UNDEFINED
  | (Polling, s) => final_status s = UNDEFINED
  | (Escaped e, s) =>
      exists r, r ∈ rs /\
        (sleep_interrupt r = Some e \/ report r = Raised e \/
         get_containers r = Raised e)
  end.
Proof.
  induction rs as [|r rs IH]; intros st cs log.
  - by destruct st.
  - destruct st; simpl; try done.
    destruct (sleep_interrupt r) as [e|] eqn:Hsleep.
    { exists r. split; [left|]. by left. }
    destruct (report r) as [st'|e] eqn:Hreport.
    2:{ exists r. split; [left|]. right. by left. }
    destruct (get_containers r) as [reported|e] eqn:Hget.
    2:{ exists r. split; [left|]. right. by right. }
    specialize (IH st' (merge_containers reported cs)
                  (((log ++ [Sleep secs]) ++ [ApplicationReport app_id])
                   ++ [GetContainers])).
    destruct (poll_loop app_id secs rs st' _ _) as [[|e|] s]; try done.
    destruct IH as (r' & Hin & Hr'). exists r'. split; [by right|done].
Qed.

Lemma monitor_sleeps_before_each_query_aux mgr app_id secs log :
  exists n tail,
    (monitor mgr app_id secs log).2
    = log ++ polls app_id secs n ++ tail /\
    (tail = [] \/ tail = [Sleep secs] \/
     tail = [Sleep secs; ApplicationReport app_id]).
Proof.
  destruct (poll_loop_calls_shape app_id secs (rounds mgr) UNDEFINED ∅ log)
    as (n & tail & Hcalls & Htail).
  exists n, tail. split; [|done]. unfold monitor.
  destruct (poll_loop app_id secs (rounds mgr) UNDEFINED ∅ log) as [[|e|] s];
    simpl in *; try done.
  by destruct e.
Qed.

(** The manager is never queried without a sleep first: whatever the
    manager answers and however the loop ends, the calls [monitor] makes
    are turns of sleep, report and containers in this order, followed at
    most by a sleep or by a sleep and a report. *)
Theorem monitor_sleeps_before_each_query mgr app_id secs log :
  exists n tail,
    (monitor mgr app_id secs log).2
    = log ++ polls app_id secs n ++ tail /\
    (tail = [] \/ tail = [Sleep secs] \/
     tail = [Sleep secs; ApplicationReport app_id]).
Proof. apply monitor_sleeps_before_each_query_aux. Qed.

(** [monitor] returns the status [UNDEFINED] only after a
    [ConnectionError]: a status it returns without one is terminal. *)
Theorem monitor_UNDEFINED_only_after_ConnectionError mgr app_id secs log cs log' :
  monitor mgr app_id secs log = (Some (Returned (UNDEFINED, cs)), log') ->
  exists r, r ∈ rounds mgr /\
    (sleep_interrupt r = Some ConnectionError \/
     report r = Raised ConnectionError \/
     get_containers r = Raised ConnectionError).
Proof.
  unfold monitor. intros Hmon.
  pose proof (poll_loop_end app_id secs (rounds mgr) UNDEFINED ∅ log) as Hend.
  destruct (poll_loop app_id secs (rounds mgr) UNDEFINED ∅ log) as [[|e|] s].
  - injection Hmon as Hst _ _. done.
  - destruct e; try discriminate. done.
  - discriminate.
Qed.

Lemma monitor_UNDEFINED_only_after_ConnectionError_witness :
  let mgr := mkManager (Returned "application_1") (Returned tt)
               [mkRound None (Returned UNDEFINED) (Returned []);
                mkRound None (Raised ConnectionError) (Returned [])]
               (fun _ => Returned tt) in
  monitor mgr "application_1" 10 []
  = (Some (Returned (UNDEFINED, ∅)),
     [Sleep 10; ApplicationReport "application_1"; GetContainers;
      Sleep 10; ApplicationReport "application_1"]) /\
  exists r, r ∈ rounds mgr /\
    (sleep_interrupt r = Some ConnectionError \/
     report r = Raised ConnectionError \/
     get_containers r = Raised ConnectionError).
Proof.
  intros mgr.
  assert (Hmon : monitor mgr "application_1" 10 []
                 = (Some (Returned (UNDEFINED, ∅)),
                    [Sleep 10; ApplicationReport "application_1"; GetContainers;
                     Sleep 10; ApplicationReport "application_1"]))
    by reflexivity.
  split; [exact Hmon|].
  exact (monitor_UNDEFINED_only_after_ConnectionError mgr _ _ _ _ _ Hmon).
Defined.









Lemma polls_monitoring app_id secs n :
  Forall monitoring_call (polls app_id secs n).
Proof.
  induction n as [|n IH]; [constructor|].
  rewrite polls_S. apply Forall_app. split; [|done]. by repeat constructor.
Qed.

(** [_await_termination] only adds calls of monitoring to the log. *)
Lemma await_termination_calls mgr handled app_id secs log :
  exists ext,
    (_await_termination mgr handled app_id secs log).2 = log ++ ext /\
    Forall monitoring_call ext.
Proof.
  unfold _await_termination.
  destruct (connect_result mgr) as [[]|e].
  2:{ exists [Connect app_id]. split; [done|]. by repeat constructor. }
  destruct (monitor_sleeps_before_each_query_aux mgr app_id secs
              (log ++ [Connect app_id])) as (n & tail & Hcalls & Htail).
  assert (Hmon : Forall monitoring_call ([Connect app_id] ++ polls app_id secs n ++ tail)).
  { apply Forall_app. split; [by repeat constructor|].
    apply Forall_app. split; [apply polls_monitoring|].
    destruct Htail as [-> | [-> | ->]]; by repeat constructor. }
  unfold with_shutdown.
  destruct (monitor mgr app_id secs (log ++ [Connect app_id])) as [[r|] log1];
    simpl in *; subst log1.
  - eexists (([Connect app_id] ++ polls app_id secs n ++ tail) ++ [Shutdown _]).
    split.
    + destruct (shutdown_result mgr _) as [[]|e]; [|destruct e]; simpl;
        by rewrite <- !app_assoc.
    + apply Forall_app. split; [done|]. by repeat constructor.
  - exists ([Connect app_id] ++ polls app_id secs n ++ tail).
    split; [by rewrite <- !app_assoc|done].
Qed.

Section run_more.

Variable env_name : string.
Variable node_label_fn : TaskFlavor -> string.
Variable packaging : outcome unit.
Variable debug : bool.
Variable handled : option exn.
Variable application_spec : gmap string Service -> string -> outcome unit.

Implicit Types (task_specs : gmap string task_ref) (queue : string).

(** The defaults that the lookups of the [defaultdict] insert make no
    service. *)
Lemma make_services_getitem_default key task_specs :
  make_services env_name node_label_fn (getitem_default key task_specs).2
  = make_services env_name node_label_fn task_specs.
Proof.
  unfold getitem_default.
  destruct (task_specs !! key) as [r|] eqn:Hkey; [done|]. simpl.
  unfold make_services.
  assert (Hlookup : forall k,
            default NONE (<[key := NONE]> task_specs !! k)
            = default NONE (task_specs !! k)).
  { intros k. destruct (decide (key = k)) as [->|Hne].
    - by rewrite lookup_insert_eq, Hkey.
    - by rewrite lookup_insert_ne. }
  rewrite !Hlookup. rewrite omap_insert_None; [|done].
  apply delete_id. by rewrite lookup_omap, Hkey.
Qed.

Lemma assert_instances_Returned key test task_specs task_specs' :
  assert_instances debug key test task_specs = Returned task_specs' ->
  make_services env_name node_label_fn task_specs'
  = make_services env_name node_label_fn task_specs /\
  (forall k, k <> key -> task_specs' !! k = task_specs !! k) /\
  (debug = true ->
   test (instances (deref (default NONE (task_specs !! key)))) = true).
Proof.
  unfold assert_instances. destruct debug.
  - pose proof (make_services_getitem_default key task_specs) as Hsvc.
    pose proof (getitem_default_value key task_specs) as Hval.
    pose proof (fun k => getitem_default_other key k task_specs) as Hother.
    destruct (getitem_default key task_specs) as [r ts]. simpl in *. subst r.
    destruct (test _) eqn:Htest; [|discriminate].
    intros [= <-]. split; [done|]. split; [|done].
    intros k Hk. apply Hother. congruence.
  - intros [= <-]. done.
Qed.

(** How the log of [run] is made up. *)
Lemma run_shape mgr task_specs queue log r log' :
  run env_name node_label_fn packaging debug handled application_spec
    mgr task_specs queue log
  = (r, log') ->
  log' = log \/
  (dom task_specs ⊆ all_task_types /\
   (debug = true ->
    instances (deref (default NONE (task_specs !! "evaluator"))) <= 1 /\
    instances (deref (default NONE (task_specs !! "chief"))) = 1) /\
   exists ext,
     log' = log ++ [ClientStart;
                    Submit (make_services env_name node_label_fn task_specs) queue]
                ++ ext ++ match r with Some _ => [ClientClose] | None => [] end /\
     Forall monitoring_call ext).
Proof.
  unfold run.
  destruct (decide (dom task_specs ⊆ all_task_types)) as [Hkeys|Hkeys].
  2:{ intros [= <- <-]. by left. }
  destruct (assert_instances debug "evaluator" _ task_specs)
    as [task_specs1|e] eqn:Hev.
  2:{ intros [= <- <-]. by left. }
  destruct (assert_instances_Returned _ _ _ _ Hev) as (Hsvc1 & Hother1 & Htest1).
  destruct (assert_instances debug "chief" _ task_specs1)
    as [task_specs2|e] eqn:Hch.
  2:{ intros [= <- <-]. by left. }
  destruct (assert_instances_Returned _ _ _ _ Hch) as (Hsvc2 & _ & Htest2).
  rewrite Hother1 in Htest2 by done.
  destruct packaging as [[]|e].
  2:{ intros [= <- <-]. by left. }
  rewrite Hsvc2, Hsvc1.
  destruct (application_spec _ queue) as [[]|e].
  2:{ intros [= <- <-]. by left. }
  intros Hrun. right.
  split; [done|]. split.
  { intros Hdebug. specialize (Htest1 Hdebug). specialize (Htest2 Hdebug).
    simpl in *. lia. }
  destruct (submit_result mgr) as [app_id|e].
  2:{ injection Hrun as <- <-. exists []. split; [|constructor].
      by rewrite <- !app_assoc. }
  destruct (await_termination_calls mgr handled app_id 10
              (log ++ [ClientStart;
                       Submit (make_services env_name node_label_fn task_specs)
                         queue]))
    as (ext & Hcalls & Hext).
  destruct (_await_termination mgr handled app_id 10 _) as [[[v|e]|] log2];
    simpl in Hcalls; subst log2; injection Hrun as <- <-;
    exists ext; (split; [by rewrite ?app_nil_r, <- ?app_assoc|done]).
Qed.

(** [run] submits once at most and closes what it opens: its calls are
    either none at all, or the opening of the client, one submission of
    the services made from [task_specs], calls of monitoring, and -- as
    soon as [run] ends, by returning or by an exception -- the closing of
    the client. *)
Theorem run_call_discipline mgr task_specs queue log r log' :
  run env_name node_label_fn packaging debug handled application_spec
    mgr task_specs queue log
  = (r, log') ->
  log' = log \/
  exists ext,
    log' = log ++ [ClientStart;
                   Submit (make_services env_name node_label_fn task_specs) queue]
               ++ ext ++ match r with Some _ => [ClientClose] | None => [] end /\
    Forall monitoring_call ext.
Proof.
  intros Hrun. destruct (run_shape _ _ _ _ _ _ Hrun) as [->|(_ & _ & Hext)].
  - by left.
  - by right.
Qed.

(** What [run] submits has passed the validation: with assertions on, the
    submitted services have only task types as keys, a chief service with
    exactly one instance and the resources asked for the chief, and at
    most one evaluator instance.  A task type that [task_specs] leaves out
    or gives as [TaskSpec.NONE] has no service; every other has one, with
    the instances, the memory and cores and the node label of its
    [TaskSpec]. *)
Theorem run_submits_validated_services mgr task_specs queue services queue' :
  debug = true ->
  Submit services queue'
    ∈ (run env_name node_label_fn packaging debug handled application_spec
         mgr task_specs queue []).2 ->
  queue' = queue /\
  dom services ⊆ all_task_types /\
  (exists chief svc,
     task_specs !! "chief" = Some (Spec chief) /\
     services !! "chief" = Some svc /\
     service_instances svc = 1 /\
     resources svc = (memory chief, vcores chief)) /\
  (forall svc, services !! "evaluator" = Some svc -> service_instances svc <= 1) /\
  (forall k,
     task_specs !! k = None \/ task_specs !! k = Some NONE ->
     services !! k = None) /\
  (forall k ts,
     task_specs !! k = Some (Spec ts) ->
     exists svc,
       services !! k = Some svc /\
       service_instances svc = instances ts /\
       resources svc = (memory ts, vcores ts) /\
       node_label svc = node_label_fn (flavor ts)).
Proof.
  intros Hdebug Hin.
  destruct (run env_name node_label_fn packaging debug handled application_spec
              mgr task_specs
              queue []) as [r log'] eqn:Hrun.
  simpl in Hin.
  destruct (run_shape _ _ _ _ _ _ Hrun)
    as [->|(Hkeys & Hcounts & ext & -> & Hext)].
  { by apply elem_of_nil in Hin. }
  destruct (Hcounts Hdebug) as [Hev Hch].
  assert (Hsubmit : Submit services queue'
            = Submit (make_services env_name node_label_fn task_specs) queue).
  { simpl in Hin. apply elem_of_cons in Hin as [Heq|Hin]; [discriminate|].
    apply elem_of_cons in Hin as [Heq|Hin]; [done|].
    apply elem_of_app in Hin as [Hin|Hin].
    - rewrite Forall_forall in Hext. destruct (Hext _ Hin).
    - destruct r; [|by apply elem_of_nil in Hin].
      apply list_elem_of_singleton in Hin. discriminate. }
  injection Hsubmit as -> ->. split; [done|]. split; [|split; [|split; [|split]]].
  - etrans; [apply dom_omap_subseteq|done].
  - destruct (task_specs !! "chief") as [[|chief]|] eqn:Hchief; simpl in Hch;
      try lia.
    exists chief. eexists. split; [done|]. split.
    + unfold make_services. rewrite lookup_omap, Hchief. simpl. done.
    + done.
  - intros svc. unfold make_services. rewrite lookup_omap.
    destruct (task_specs !! "evaluator") as [[|ev]|]; simpl; try done.
    intros [= <-]. simpl in *. done.
  - intros k Hk. unfold make_services. rewrite lookup_omap.
    by destruct Hk as [-> | ->].
  - intros k ts Hk. eexists. split.
    + unfold make_services. rewrite lookup_omap, Hk. simpl. done.
    + done.
Qed.

(** Under [python -O] the counts are not checked: with assertions off,
    only task types as keys and services that skein takes, [run] opens the
    client and submits whatever services [task_specs] gives -- with no
    chief, or with several. *)
Theorem run_without_assertions_submits mgr task_specs queue log :
  debug = false ->
  dom task_specs ⊆ all_task_types ->
  packaging = Returned tt ->
  application_spec (make_services env_name node_label_fn task_specs) queue
  = Returned tt ->
  exists ext,
    (run env_name node_label_fn packaging debug handled application_spec
       mgr task_specs queue log).2
    = log ++ [ClientStart;
              Submit (make_services env_name node_label_fn task_specs) queue]
          ++ ext.
Proof.
  intros Hdebug Hkeys Hpack Htakes.
  destruct (run env_name node_label_fn packaging debug handled application_spec
              mgr task_specs
              queue log) as [r log'] eqn:Hrun.
  pose proof Hrun as Hrun'. unfold run in Hrun'.
  rewrite decide_True in Hrun' by done.
  unfold assert_instances in Hrun'. rewrite Hdebug, Hpack in Hrun'.
  cbv zeta in Hrun'. rewrite Htakes in Hrun'.
  destruct (run_shape _ _ _ _ _ _ Hrun) as [->|(_ & _ & ext & -> & _)].
  - exfalso. destruct (submit_result mgr) as [app_id|e].
    + destruct (await_termination_calls mgr handled app_id 10
                  (log ++ [ClientStart;
                           Submit (make_services env_name node_label_fn task_specs)
                             queue])) as (ext & Hcalls & _).
      destruct (_await_termination mgr handled app_id 10 _) as [[[v|e]|] log2];
        simpl in Hcalls; subst log2; injection Hrun' as _ Hlog;
        apply (f_equal length) in Hlog; rewrite !length_app in Hlog;
        simpl in Hlog; lia.
    + injection Hrun' as _ Hlog. apply (f_equal length) in Hlog.
      rewrite !length_app in Hlog. simpl in Hlog. lia.
  - simpl. eexists. reflexivity.
Qed.

End run_more.

Lemma run_call_discipline_witness :
  let mgr := mkManager (Returned "application_1") (Returned tt)
               [mkRound None (Returned SUCCEEDED) (Returned [])]
               (fun _ => Returned tt) in
  let task_specs : gmap string task_ref :=
    {[ "chief" := Spec (mkTaskSpec 1024 1 1 CPU) ]} in
  (run "env" (fun _ => "") (Returned tt) true None refuses_no_service
     mgr task_specs "default" []).1
  = Some (Returned tt) /\
  exists ext,
    (run "env" (fun _ => "") (Returned tt) true None refuses_no_service
       mgr task_specs "default" []).2
    = [ClientStart; Submit (make_services "env" (fun _ => "") task_specs) "default"]
        ++ ext ++ [ClientClose] /\
    Forall monitoring_call ext.
Proof.
  intros mgr task_specs. split; [reflexivity|].
  destruct (run_call_discipline "env" (fun _ => "") (Returned tt) true None
              refuses_no_service
              mgr task_specs "default" [] (Some (Returned tt))
              (run "env" (fun _ => "") (Returned tt) true None refuses_no_service
                 mgr task_specs
                 "default" []).2 eq_refl) as [Hnone|Hsome].
  - vm_compute in Hnone. discriminate.
  - exact Hsome.
Defined.

Lemma run_submits_validated_services_witness :
  let mgr := mkManager (Returned "application_1") (Returned tt)
               [mkRound None (Returned SUCCEEDED) (Returned [])]
               (fun _ => Returned tt) in
  let task_specs : gmap string task_ref :=
    {[ "chief" := Spec (mkTaskSpec 1024 1 1 CPU);
       "ps" := NONE;
       "worker" := Spec (mkTaskSpec 2048 2 4 GPU) ]} in
  let services := make_services "env" (fun _ => "") task_specs in
  Submit services "default"
    ∈ (run "env" (fun _ => "") (Returned tt) true None refuses_no_service
         mgr task_specs "default" []).2 /\
  dom services ⊆ all_task_types /\
  (exists chief svc,
     task_specs !! "chief" = Some (Spec chief) /\
     services !! "chief" = Some svc /\
     service_instances svc = 1%Z /\
     resources svc = (memory chief, vcores chief)) /\
  services !! "ps" = None /\
  services !! "evaluator" = None /\
  exists svc,
    services !! "worker" = Some svc /\
    service_instances svc = 4%Z /\
    resources svc = (2048%Z, 2%Z) /\
    node_label svc = "".
Proof.
  intros mgr task_specs services.
  assert (Hin : Submit services "default"
            ∈ (run "env" (fun _ => "") (Returned tt) true None refuses_no_service
                 mgr task_specs
                 "default" []).2).
  { right. left. }
  split; [exact Hin|].
  destruct (run_submits_validated_services "env" (fun _ => "") (Returned tt) true
              None refuses_no_service mgr task_specs "default" services
              "default" eq_refl Hin)
    as (_ & Hdom & Hchief & _ & Hnone & Hspec).
  split; [exact Hdom|]. split; [exact Hchief|].
  split; [apply Hnone; by right|]. split; [apply Hnone; by left|].
  exact (Hspec "worker" (mkTaskSpec 2048 2 4 GPU) eq_refl).
Defined.

Lemma run_without_assertions_submits_witness :
  let mgr := mkManager (Returned "application_1") (Returned tt)
               [mkRound None (Returned SUCCEEDED) (Returned [])]
               (fun _ => Returned tt) in
  let task_specs : gmap string task_ref :=
    {[ "worker" := Spec (mkTaskSpec 2048 2 4 GPU) ]} in
  refuses_no_service ∅ "default"
  = Raised (ValueError "There must be at least one service") /\
  task_specs !! "chief" = None /\
  exists ext,
    (run "env" (fun _ => "") (Returned tt) false None refuses_no_service mgr
       task_specs "default" []).2
    = [ClientStart; Submit (make_services "env" (fun _ => "") task_specs) "default"]
        ++ ext.
Proof.
  intros mgr task_specs. split; [reflexivity|]. split; [reflexivity|].
  apply (run_without_assertions_submits "env" (fun _ => "") (Returned tt) false
           None refuses_no_service mgr task_specs "default" []).
  - reflexivity.
  - unfold task_specs. rewrite dom_singleton_L. unfold all_task_types.
    set_solver.
  - reflexivity.
  - reflexivity.
Defined.

End Lifecycle_more.
